(** * Build-vs-buy page scripts: cost calculator and FAQ search

    A shallow embedding of [src/buildvsbuy/index.ts] (the cost calculator:
    [queryNumberInput], [readState], [calculateCosts]) and of the FAQ search
    script that follows it in the same file ([normalizeText], [isMatch],
    [clearHighlights], [highlightMatchesInElement], [openFaqItem],
    [ensureClickTagging], [findFirstMatchAndAct] and the [onSearch] handler
    of [attachSearchHandlerToInput]).

    Modelling conventions.
    - JavaScript strings are sequences of UTF-16 code units.  The model uses
      Rocq strings, whose characters are the code units U+0000..U+00FF;
      [toLowerCase] and [trim] are the ECMAScript functions restricted to
      that range.
    - JavaScript numbers are modelled by [number]: an exact rational, or one
      of NaN, +Infinity, -Infinity.  The rounding error of binary64
      arithmetic and the sign of zero are outside the model.
    - The DOM is a tree of text and element nodes.  The functions that the
      source writes as loops over live node references are written as the
      tree transformations these loops perform; each definition says how.
    - A [while (true)] loop takes fuel and returns [None] when it runs out. *)

From Stdlib Require Import String Ascii List Arith Bool Lia ZArith QArith Qround.
From stdpp Require Import base option list gmap.
Import ListNotations.

Local Open Scope string_scope.
Local Open Scope list_scope.
Local Open Scope nat_scope.

Set Warnings "-register-all,-clear-no-such-hyp".

(* stdpp makes string concatenation opaque to [simpl]; the proofs below
   compute with it. *)
#[global] Arguments String.append !_ _ : simpl nomatch.

(** ** JavaScript strings *)

Module JS.

Definition code (c : ascii) : nat := nat_of_ascii c.

(** Code units with a lower-case mapping in U+0000..U+00FF: A-Z and the
    Latin-1 capitals U+00C0..U+00DE except the multiplication sign. *)
Definition isUpper (c : ascii) : bool :=
  ((65 <=? code c) && (code c <=? 90))
  || ((192 <=? code c) && (code c <=? 222) && negb (code c =? 215)).

Definition toLowerChar (c : ascii) : ascii :=
  if isUpper c then ascii_of_nat (code c + 32) else c.

(** [String.prototype.toLowerCase] *)
Fixpoint toLowerCase (s : string) : string :=
  match s with
  | EmptyString => EmptyString
  | String c s' => String (toLowerChar c) (toLowerCase s')
  end.

(** WhiteSpace and LineTerminator code units below U+0100:
    TAB, LF, VT, FF, CR, SP, NBSP. *)
Definition isWhiteSpace (c : ascii) : bool :=
  existsb (Nat.eqb (code c)) [9; 10; 11; 12; 13; 32; 160].

Fixpoint trimStart (s : string) : string :=
  match s with
  | EmptyString => EmptyString
  | String c s' => if isWhiteSpace c then trimStart s' else s
  end.

Fixpoint trimEnd (s : string) : string :=
  match s with
  | EmptyString => EmptyString
  | String c s' =>
      match trimEnd s' with
      | EmptyString => if isWhiteSpace c then EmptyString else String c EmptyString
      | r => String c r
      end
  end.

(** [String.prototype.trim] *)
Definition trim (s : string) : string := trimEnd (trimStart s).

Fixpoint drop (n : nat) (s : string) : string :=
  match n, s with
  | O, _ => s
  | S n', String _ s' => drop n' s'
  | S _, EmptyString => EmptyString
  end.

Fixpoint take (n : nat) (s : string) : string :=
  match n, s with
  | S n', String c s' => String c (take n' s')
  | _, _ => EmptyString
  end.

(** [s.slice(a, b)] and [s.slice(a)] for non-negative indices; indices past
    the end are clamped, and [b < a] gives the empty string. *)
Definition slice (s : string) (a b : nat) : string := take (b - a) (drop a s).
Definition sliceFrom (s : string) (a : nat) : string := drop a s.

(** Search for [q] in [s], whose first code unit has index [i]. *)
Fixpoint indexOfAt (s q : string) (i : nat) : option nat :=
  if String.prefix q s then Some i
  else match s with
       | EmptyString => None
       | String _ s' => indexOfAt s' q (S i)
       end.

(** [s.indexOf(q, pos)]: the start position is clamped to the length of
    [s]; [None] stands for the result -1. *)
Definition indexOf (s q : string) (pos : nat) : option nat :=
  let start := Nat.min pos (String.length s) in
  indexOfAt (drop start s) q start.

(** [s.includes(q)] *)
Definition includes (s q : string) : bool :=
  match indexOf s q 0 with Some _ => true | None => false end.

End JS.

(** [normalizeText] of the FAQ script: lower-case, then trim. *)
Definition normalizeText (text : string) : string := JS.trim (JS.toLowerCase text).

(** ** The DOM fragment the FAQ script works on *)

(** A node is a text node or an element.  [classList] holds the tokens of the
    class attribute, [attributes] every other attribute. *)
Inductive Node : Type :=
| Text (data : string)
| Element (localName : string) (classList : list string)
          (attributes : list (string * string)) (childNodes : list Node).

Definition OPENED_ATTR : string := "data-opened-by-search".
Definition HIGHLIGHT_CLASS : string := "faq-search-highlight".
Definition HIGHLIGHT_TAG : string := "mark".

Definition concatText (l : list string) : string := fold_right String.append "" l.

(** [node.textContent]: the data of the text nodes below [n], in tree order. *)
Fixpoint textContent (n : Node) : string :=
  match n with
  | Text d => d
  | Element _ _ _ kids => concatText (map textContent kids)
  end.

(** The text of a child list, as [textContent] concatenates it. *)
Definition childrenText (kids : list Node) : string :=
  concatText (map textContent kids).

(** The selector [`${HIGHLIGHT_TAG}.${HIGHLIGHT_CLASS}`]. *)
Definition isHighlightMark (n : Node) : bool :=
  match n with
  | Text _ => false
  | Element tag cls _ _ =>
      String.eqb tag HIGHLIGHT_TAG && existsb (String.eqb HIGHLIGHT_CLASS) cls
  end.

(** The descendants of [n] in tree order ([n] itself excluded). *)
Fixpoint descendants (n : Node) : list Node :=
  match n with
  | Text _ => []
  | Element _ _ _ kids => flat_map (fun k => k :: descendants k) kids
  end.

(** [container.querySelectorAll('mark.faq-search-highlight')] *)
Definition querySelectorAllMarks (container : Node) : list Node :=
  List.filter isHighlightMark (descendants container).

(** One step of [Node.prototype.normalize] on a child list, right to left:
    an empty text node is dropped, a text node followed by a text node
    absorbs it. *)
Definition mergeText (n : Node) (acc : list Node) : list Node :=
  match n with
  | Text d =>
      if String.eqb d "" then acc
      else match acc with
           | Text e :: acc' => Text (d ++ e)%string :: acc'
           | _ => n :: acc
           end
  | Element _ _ _ _ => n :: acc
  end.

#[global] Arguments mergeText : simpl never.

(** [node.normalize()]: in the whole subtree, empty text nodes are removed
    and adjacent text nodes are joined. *)
Fixpoint normalize (n : Node) : Node :=
  match n with
  | Text _ => n
  | Element t c a kids => Element t c a (fold_right mergeText [] (map normalize kids))
  end.

(** *** clearHighlights *)

(** The body of the [marks.forEach] callback, applied to the first highlight
    mark (in tree order) below [n]: the mark is replaced in its parent by a
    text node holding the mark's text content, then the parent is normalised.
    [None] when there is no highlight mark below [n]. *)
Fixpoint replaceFirstMark (n : Node) : option Node :=
  match n with
  | Text _ => None
  | Element t c a kids =>
      match
        (fix go (ks : list Node) : option (list Node * bool) :=
           match ks with
           | [] => None
           | k :: rest =>
               if isHighlightMark k
               then Some (Text (textContent k) :: rest, true)
               else match replaceFirstMark k with
                    | Some k' => Some (k' :: rest, false)
                    | None =>
                        match go rest with
                        | Some (rest', here) => Some (k :: rest', here)
                        | None => None
                        end
                    end
           end) kids
      with
      | Some (kids', true) => Some (normalize (Element t c a kids'))
      | Some (kids', false) => Some (Element t c a kids')
      | None => None
      end
  end.

(** The search of [replaceFirstMark] through a child list (its local [go]):
    the new child list, and whether the mark was one of these children. *)
Fixpoint replaceFirstMarkIn (ks : list Node) : option (list Node * bool) :=
  match ks with
  | [] => None
  | k :: rest =>
      if isHighlightMark k
      then Some (Text (textContent k) :: rest, true)
      else match replaceFirstMark k with
           | Some k' => Some (k' :: rest, false)
           | None =>
               match replaceFirstMarkIn rest with
               | Some (rest', here) => Some (k :: rest', here)
               | None => None
               end
           end
  end.

(** One run of the callback on the container [cur]; nothing happens when no
    highlight mark is left below it. *)
Definition clearStep (cur : Node) : Node :=
  match replaceFirstMark cur with Some c' => c' | None => cur end.

(** [clearHighlights(container)].  The source collects [marks] once and runs
    the callback on each.  A mark nested in an earlier mark of the list is
    detached from the container by the time its turn comes, so its callback
    changes nothing below the container; every other mark is, at its turn,
    the first highlight mark still below the container, since only marks and
    text nodes are ever removed.  The model therefore runs [clearStep] once
    per collected mark. *)
Definition clearHighlights (container : Node) : Node :=
  fold_left (fun cur _ => clearStep cur) (querySelectorAllMarks container) container.

(** *** highlightMatchesInElement *)

(** [pushMark]: [createElement(HIGHLIGHT_TAG)], [className = HIGHLIGHT_CLASS],
    [textContent = s] (which adds no child when [s] is empty). *)
Definition pushMark (s : string) : Node :=
  Element HIGHLIGHT_TAG [HIGHLIGHT_CLASS] []
          (if String.eqb s "" then [] else [Text s]).

(** [pushText] *)
Definition pushText (s : string) : Node := Text s.

(** The [while (true)] loop over one text node: the children appended to the
    fragment from cursor [pos] on. *)
Fixpoint highlightLoop (fuel : nat) (original lower q : string) (pos : nat)
  : option (list Node) :=
  match fuel with
  | O => None
  | S fuel' =>
      match JS.indexOf lower q pos with
      | None => Some [pushText (JS.sliceFrom original pos)]
      | Some idx =>
          rest ← highlightLoop fuel' original lower q (idx + String.length q);
          Some ((if pos <? idx then [pushText (JS.slice original pos idx)] else [])
                  ++ pushMark (JS.slice original idx (idx + String.length q)) :: rest)
      end
  end.

(** The tree walker's [acceptNode] filter on a text node with data [text]. *)
Definition acceptNode (q text : string) : bool :=
  JS.includes (normalizeText text) q.

(** What [textNodes.forEach] leaves in place of node [n]: an accepted text
    node is replaced by the children of its fragment, every other node stays,
    with the same done below it.  The text nodes are collected before any is
    replaced, and the replacement of one does not move another, so the loop is
    this map over the tree. *)
Fixpoint highlightNode (fuel : nat) (q : string) (n : Node) : option (list Node) :=
  match n with
  | Text original =>
      if acceptNode q original
      then highlightLoop fuel original (normalizeText original) q 0
      else Some [n]
  | Element t c a kids =>
      kids' ← (fix go (ks : list Node) : option (list Node) :=
                 match ks with
                 | [] => Some []
                 | k :: rest =>
                     r ← highlightNode fuel q k;
                     rs ← go rest;
                     Some (r ++ rs)
                 end) kids;
      Some [Element t c a kids']
  end.

(** The same over a child list (the local [go] of [highlightNode]). *)
Fixpoint highlightChildren (fuel : nat) (q : string) (kids : list Node)
  : option (list Node) :=
  match kids with
  | [] => Some []
  | k :: rest =>
      r ← highlightNode fuel q k;
      rs ← highlightChildren fuel q rest;
      Some (r ++ rs)
  end.

(** [highlightMatchesInElement(container, query)]; [fuel] bounds the number
    of iterations of each [while (true)] loop. *)
Definition highlightMatchesInElement (fuel : nat) (container : Node) (query : string)
  : option Node :=
  if String.eqb query "" then Some container
  else
    let q := normalizeText query in
    match container with
    | Text _ => Some container
    | Element t c a kids =>
        kids' ← highlightChildren fuel q kids;
        Some (Element t c a kids')
    end.

(** One apply/clear cycle, and a run of cycles, one per query. *)
Definition highlightThenClear (fuel : nat) (query : string) (container : Node)
  : option Node :=
  clearHighlights <$> highlightMatchesInElement fuel container query.

Fixpoint cycles (fuel : nat) (queries : list string) (container : Node)
  : option Node :=
  match queries with
  | [] => Some container
  | query :: rest =>
      container' ← highlightThenClear fuel query container;
      cycles fuel rest container'
  end.

(** There is a text node at or below [n]. *)
Fixpoint containsText (n : Node) : bool :=
  match n with
  | Text _ => true
  | Element _ _ _ kids => existsb containsText kids
  end.

(** *** Notions used to state what clearing and highlighting preserve *)

Definition isText (n : Node) : bool :=
  match n with Text _ => true | Element _ _ _ _ => false end.

(** A child list that [normalize] would leave as it is: no empty text node,
    no text node followed by a text node. *)
Fixpoint mergedList (kids : list Node) : bool :=
  match kids with
  | [] => true
  | Text d :: rest =>
      negb (String.eqb d "")
      && match rest with Text _ :: _ => false | _ => true end
      && mergedList rest
  | Element _ _ _ _ :: rest => mergedList rest
  end.

(** The data of a text node. *)
Definition textShape (k : Node) : option string :=
  match k with Text d => Some d | Element _ _ _ _ => None end.

(** A tree that [normalize] would leave as it is. *)
Fixpoint isNormalized (n : Node) : bool :=
  match n with
  | Text _ => true
  | Element _ _ _ kids => mergedList kids && forallb isNormalized kids
  end.

(** The number of highlight marks below [n]. *)
Fixpoint countMarks (n : Node) : nat :=
  match n with
  | Text _ => 0
  | Element _ _ _ kids =>
      list_sum (map (fun k => (if isHighlightMark k then 1 else 0) + countMarks k) kids)
  end.

Definition countMarksIn (kids : list Node) : nat :=
  list_sum (map (fun k => (if isHighlightMark k then 1 else 0) + countMarks k) kids).

(** Every element outside the highlight marks has a highlight mark among its
    children or a merged child list.  (The state of a container between two
    runs of the [forEach] callback of [clearHighlights].) *)
Fixpoint settled (n : Node) : bool :=
  match n with
  | Text _ => true
  | Element _ _ _ kids =>
      (existsb isHighlightMark kids || mergedList kids)
      && forallb (fun k => isHighlightMark k || settled k) kids
  end.

(** The tree with every highlight mark replaced by its text and every
    child list normalised. *)
Fixpoint flatten (n : Node) : Node :=
  match n with
  | Text _ => n
  | Element t c a kids =>
      Element t c a
        (fold_right mergeText []
           (map (fun k => if isHighlightMark k then Text (textContent k) else flatten k)
                kids))
  end.

Definition flattenChild (k : Node) : Node :=
  if isHighlightMark k then Text (textContent k) else flatten k.

(** The elements of a container outside its highlight marks, with their
    names, classes, attributes and nesting: the tree without its text nodes
    and without its highlight marks. *)
Fixpoint skeleton (n : Node) : Node :=
  match n with
  | Text _ => n
  | Element t c a kids =>
      Element t c a
        (flat_map (fun k => if negb (isText k) && negb (isHighlightMark k)
                            then [skeleton k] else []) kids)
  end.

Definition skeletonChild (k : Node) : list Node :=
  if negb (isText k) && negb (isHighlightMark k) then [skeleton k] else [].

(** What [clearHighlights] would return if it did nothing but replace each
    highlight mark by a text node holding the mark's text. *)
Fixpoint replaceMarksOnly (n : Node) : Node :=
  match n with
  | Text _ => n
  | Element t c a kids =>
      Element t c a
        (map (fun k => if isHighlightMark k then Text (textContent k)
                       else replaceMarksOnly k) kids)
  end.

(** ** JavaScript numbers *)

Inductive number : Type :=
| Num (q : Q)
| NaN
| PosInfinity
| NegInfinity.

Coercion Num : Q >-> number.

Module Number.

Definition isFinite (x : number) : bool :=
  match x with Num _ => true | _ => false end.

(** The infinity with the sign of [q]; NaN for zero (used for the products
    and quotients of an infinity and a finite number). *)
Definition signedInfinity (q : Q) (positive : bool) : number :=
  match (q ?= 0)%Q with
  | Eq => NaN
  | Gt => if positive then PosInfinity else NegInfinity
  | Lt => if positive then NegInfinity else PosInfinity
  end.

Definition mul (x y : number) : number :=
  match x, y with
  | NaN, _ | _, NaN => NaN
  | Num a, Num b => Num (a * b)%Q
  | Num a, PosInfinity | PosInfinity, Num a => signedInfinity a true
  | Num a, NegInfinity | NegInfinity, Num a => signedInfinity a false
  | PosInfinity, PosInfinity | NegInfinity, NegInfinity => PosInfinity
  | PosInfinity, NegInfinity | NegInfinity, PosInfinity => NegInfinity
  end.

Definition add (x y : number) : number :=
  match x, y with
  | NaN, _ | _, NaN => NaN
  | Num a, Num b => Num (a + b)%Q
  | PosInfinity, NegInfinity | NegInfinity, PosInfinity => NaN
  | PosInfinity, _ | _, PosInfinity => PosInfinity
  | NegInfinity, _ | _, NegInfinity => NegInfinity
  end.

Definition neg (x : number) : number :=
  match x with
  | Num a => Num (- a)%Q
  | NaN => NaN
  | PosInfinity => NegInfinity
  | NegInfinity => PosInfinity
  end.

Definition sub (x y : number) : number := add x (neg y).

(** Division; a zero divisor counts as +0. *)
Definition div (x y : number) : number :=
  match x, y with
  | NaN, _ | _, NaN => NaN
  | Num a, Num b =>
      if Qeq_bool b 0 then signedInfinity a true else Num (a / b)%Q
  | Num _, _ => Num 0%Q
  | PosInfinity, Num b => if Qle_bool 0%Q b then PosInfinity else NegInfinity
  | NegInfinity, Num b => if Qle_bool 0%Q b then NegInfinity else PosInfinity
  | _, _ => NaN
  end.

(** [Math.round]: the nearest integer, a tie going to the larger one. *)
Definition round (x : number) : number :=
  match x with
  | Num a => Num (inject_Z (Qfloor (a + (1 # 2))%Q))
  | _ => x
  end.


(** Equality of numbers as values: the same rational, or the same special
    value. *)
Definition equiv (x y : number) : Prop :=
  match x, y with
  | Num a, Num b => (a == b)%Q
  | NaN, NaN | PosInfinity, PosInfinity | NegInfinity, NegInfinity => True
  | _, _ => False
  end.

End Number.

Declare Scope js_scope.
Delimit Scope js_scope with js.
Bind Scope js_scope with number.
Infix "*" := Number.mul : js_scope.
Infix "+" := Number.add : js_scope.
Infix "-" := Number.sub : js_scope.
Infix "/" := Number.div : js_scope.

(** ** The cost calculator *)

Module Calculator.

Record CalculatorState : Type := {
  engineers : number;
  salary : number;
  users : number;
  timeline : number;
  hasExistingAuth : bool
}.

Record Build : Type := {
  build_total : number;
  initialDevelopment : number;
  ongoingMaintenance : number;
  securityAndCompliance : number;
  opportunityCost : number;
  oneTimeTransition : number
}.

Record Saas : Type := {
  saas_total : number;
  userLicensing : number;
  integrationWork : number;
  ongoingSupport : number;
  migrationCost : number
}.

Record Fusionauth : Type := {
  fus_total : number;
  licensing : number;
  integration : number;
  maintenance : number
}.

Record CostBreakdown : Type := {
  build : Build;
  saas : Saas;
  fusionauth : Fusionauth;
  savingsVsBuild : number
}.

(** An [<input>] of the page, as the calculator reads it: [valueNumber] is
    the number [Number(el.value)]. *)
Record HTMLInputElement : Type := {
  name : string;
  valueNumber : number;
  checked : bool
}.

(** The inputs of the page, in tree order. *)
Definition Document : Type := list HTMLInputElement.

(** [document.querySelector('input[name="..."]')] *)
Definition querySelector (document : Document) (inputName : string)
  : option HTMLInputElement :=
  List.find (fun el => String.eqb (name el) inputName) document.

Definition queryNumberInput (document : Document) (selector : string)
           (fallback : number) : number :=
  match querySelector document selector with
  | None => fallback
  | Some el =>
      let value := valueNumber el in
      if Number.isFinite value then value else fallback
  end.

Definition queryBooleanInput (document : Document) (selector : string)
           (fallback : bool) : bool :=
  match querySelector document selector with
  | None => fallback
  | Some el => checked el
  end.

Definition readState (document : Document) : CalculatorState :=
  let engineers := queryNumberInput document "engineers" 3%Q in
  let salary := queryNumberInput document "salary" 150000%Q in
  let users := queryNumberInput document "volume" 10000%Q in
  let timeline := queryNumberInput document "timeline" 3%Q in
  let hasExistingAuth := queryBooleanInput document "auth" false in
  {| engineers := engineers; salary := salary; users := users;
     timeline := timeline; hasExistingAuth := hasExistingAuth |}.

(** A state as [readState] builds it: every numeric field is finite. *)
Definition finiteState (state : CalculatorState) : Prop :=
  Number.isFinite (engineers state) = true
  /\ Number.isFinite (salary state) = true
  /\ Number.isFinite (users state) = true
  /\ Number.isFinite (timeline state) = true.

Local Open Scope js_scope.

Definition calculateCosts (state : CalculatorState) : CostBreakdown :=
  let overheadMultiplier : number := 1.5%Q in
  let buildInitialDevelopment :=
    Number.round (engineers state * (salary state * overheadMultiplier) * 0.5%Q) in
  let buildOngoingMaintenance :=
    Number.round ((timeline state * 78%Q * (salary state * overheadMultiplier)) / 2080%Q) in
  let buildSecurityAndCompliance := Number.round (timeline state * 80000%Q) in
  let buildOpportunityCost := Number.round (timeline state * 6120%Q) in

  let buildTransitionOneTime : number := 50000%Q in
  let buildMaintenanceExisting := 85000%Q * timeline state in

  let buildTotal :=
    if hasExistingAuth state
    then buildTransitionOneTime + buildMaintenanceExisting
    else buildInitialDevelopment
         + buildOngoingMaintenance
         + buildSecurityAndCompliance
         + buildOpportunityCost in

  let saasMigrationCost : number := if hasExistingAuth state then 100000%Q else 0%Q in
  let saasUserLicensing :=
    Number.round (users state * 0.05%Q * 12%Q * timeline state) in
  let saasIntegrationWorkBase :=
    Number.round (engineers state * (salary state * overheadMultiplier) * 0.25%Q) in
  let saasIntegrationWork := saasIntegrationWorkBase + saasMigrationCost in
  let saasOngoingSupport :=
    Number.round ((timeline state * 104%Q * (salary state * overheadMultiplier)) / 2080%Q) in
  let saasTotal := saasUserLicensing + saasIntegrationWork + saasOngoingSupport in

  let fusLicensing := Number.round (users state * 0.024%Q * 12%Q * timeline state) in
  let fusIntegration :=
    Number.round (engineers state * (salary state * overheadMultiplier) * 0.04%Q) in
  let fusMaintenance :=
    Number.round ((timeline state * 26%Q * (salary state * overheadMultiplier)) / 2080%Q) in
  let fusTotal := fusLicensing + fusIntegration + fusMaintenance in

  {| build :=
       {| build_total := buildTotal;
          initialDevelopment :=
            if hasExistingAuth state then buildTransitionOneTime else buildInitialDevelopment;
          ongoingMaintenance :=
            if hasExistingAuth state then buildMaintenanceExisting else buildOngoingMaintenance;
          securityAndCompliance :=
            if hasExistingAuth state then 0%Q else buildSecurityAndCompliance;
          opportunityCost :=
            if hasExistingAuth state then 0%Q else buildOpportunityCost;
          oneTimeTransition :=
            if hasExistingAuth state then buildTransitionOneTime else 0%Q |};
     saas :=
       {| saas_total := saasTotal;
          userLicensing := saasUserLicensing;
          integrationWork := saasIntegrationWork;
          ongoingSupport := saasOngoingSupport;
          migrationCost := saasMigrationCost |};
     fusionauth :=
       {| fus_total := fusTotal;
          licensing := fusLicensing;
          integration := fusIntegration;
          maintenance := fusMaintenance |};
     savingsVsBuild := buildTotal - fusTotal |}.

End Calculator.

(** ** The FAQ search controller *)

Module FaqSearch.

(** Who performed a click on a question header. *)
Inductive Actor : Type := ByUser | BySearch.

(** One entry of [FaqItemElements] together with the state of the DOM
    nodes it refers to.  The item element is identified by its position in
    the list returned by [collectFaqItems]; its title and answer regions
    are disjoint subtrees of it.
    - [questionWrapper]: the header element exists;
    - [questionTitle], [answer]: the subtree of the region, when it exists;
    - [openedAttr]: [item.getAttribute(OPENED_ATTR)];
    - [isOpen]: what [isFaqItemOpen] observes.  The accordion interaction
      of the page is not part of the script; it is taken to toggle this
      on each click on the header;
    - [clickTagged]: the header is in [clickTaggedWrappers], that is, it
      carries the listener added by [ensureClickTagging];
    - [markedBy]: ghost field, read by no handler: who performed the click
      by which [openedAttr] became ['true']. *)
Record FaqItem : Type := mkFaqItem {
  questionWrapper : bool;
  questionTitle : option Node;
  answer : option Node;
  openedAttr : option string;
  isOpen : bool;
  clickTagged : bool;
  markedBy : option Actor
}.

(** What the handlers do to the page besides changing the items: a click
    on the header of item [i], and [scrollIntoViewIfNeeded] on item [i] or
    on the first highlight mark inside it. *)
Inductive Effect : Type :=
| Click (who : Actor) (i : nat)
| ScrollIntoView (i : nat).

(** [searchOpenedItems] is the module-level [Set]; [log] is a ghost record
    of the clicks and scrolls performed so far, oldest first. *)
Record State : Type := mkState {
  items : list FaqItem;
  searchOpenedItems : gset nat;
  log : list Effect
}.

(** [isMatch]: [normalizeText(el.textContent || '').includes(q)], false
    for a missing element. *)
Definition isMatch (el : option Node) (q : string) : bool :=
  match el with
  | None => false
  | Some e => JS.includes (normalizeText (textContent e)) q
  end.

Definition itemMatchesQuery (els : FaqItem) (q : string) : bool :=
  isMatch (questionTitle els) q || isMatch (answer els) q.

(** [isFaqItemOpen] reads the layout of the answer, or [aria-expanded]
    when there is no answer: the open state the page keeps for the item. *)
Definition isFaqItemOpen (els : FaqItem) : bool := isOpen els.

(** [getAttribute(OPENED_ATTR) === 'true'] *)
Definition openedAttrIsTrue (els : FaqItem) : bool :=
  match openedAttr els with
  | Some v => String.eqb v "true"
  | None => false
  end.

(** [item.setAttribute(OPENED_ATTR, 'true')], performed by [who]. *)
Definition setOpenedAttr (who : Actor) (els : FaqItem) : FaqItem :=
  mkFaqItem (questionWrapper els) (questionTitle els) (answer els)
            (Some "true") (isOpen els) (clickTagged els)
            (if openedAttrIsTrue els then markedBy els else Some who).

(** [item.removeAttribute(OPENED_ATTR)] *)
Definition removeOpenedAttr (els : FaqItem) : FaqItem :=
  mkFaqItem (questionWrapper els) (questionTitle els) (answer els)
            None (isOpen els) (clickTagged els) None.

(** A click on the question header: the page toggles the item, and the
    listener of [ensureClickTagging], when attached, sets the attribute. *)
Definition click (who : Actor) (els : FaqItem) : FaqItem :=
  let toggled :=
    mkFaqItem (questionWrapper els) (questionTitle els) (answer els)
              (openedAttr els) (negb (isOpen els)) (clickTagged els)
              (markedBy els) in
  if clickTagged els then setOpenedAttr who toggled else toggled.

(** [clearHighlights(item)]: the marks of an item are in its regions. *)
Definition clearItem (els : FaqItem) : FaqItem :=
  mkFaqItem (questionWrapper els)
            (clearHighlights <$> questionTitle els)
            (clearHighlights <$> answer els)
            (openedAttr els) (isOpen els) (clickTagged els) (markedBy els).

(** [ensureClickTagging]: every header that is not yet in
    [clickTaggedWrappers] is added to it and gets the click listener, whose
    effect is in [click]. *)
Definition ensureClickTagging (page : list FaqItem) : list FaqItem :=
  map (fun els =>
         if negb (questionWrapper els) then els
         else if clickTagged els then els
         else mkFaqItem (questionWrapper els) (questionTitle els) (answer els)
                        (openedAttr els) (isOpen els) true (markedBy els))
      page.

Definition openFaqItem (i : nat) (s : State) : State :=
  match items s !! i with
  | None => s
  | Some els =>
      if negb (questionWrapper els) then s
      else if openedAttrIsTrue els then s
      else
        let clicked := click BySearch els in
        mkState (<[i := setOpenedAttr BySearch clicked]> (items s))
                ({[i]} ∪ searchOpenedItems s)
                (log s ++ [Click BySearch i])
  end.

(** [if (els) highlightMatchesInElement(els, q)] *)
Definition highlightRegion (fuel : nat) (el : option Node) (q : string)
  : option (option Node) :=
  match el with
  | None => Some None
  | Some e => e' ← highlightMatchesInElement fuel e q; Some (Some e')
  end.

(** The second [items.forEach] of [findFirstMatchAndAct], from the item at
    position [i] on: the items after the loop and [firstMatchedItem]. *)
Fixpoint highlightMatchingItems (fuel : nat) (q : string) (i : nat)
         (its : list FaqItem) (firstMatchedItem : option nat)
  : option (list FaqItem * option nat) :=
  match its with
  | [] => Some ([], firstMatchedItem)
  | els :: rest =>
      let questionMatches := isMatch (questionTitle els) q in
      let answerMatches := isMatch (answer els) q in
      if questionMatches || answerMatches then
        title' ← highlightRegion fuel (questionTitle els) q;
        answer' ← highlightRegion fuel (answer els) q;
        let els' := mkFaqItem (questionWrapper els) title' answer'
                              (openedAttr els) (isOpen els) (clickTagged els)
                              (markedBy els) in
        let first := match firstMatchedItem with
                     | None => Some i
                     | Some _ => firstMatchedItem
                     end in
        '(rest', found) ← highlightMatchingItems fuel q (S i) rest first;
        Some (els' :: rest', found)
      else
        '(rest', found) ← highlightMatchingItems fuel q (S i) rest firstMatchedItem;
        Some (els :: rest', found)
  end.

Definition findFirstMatchAndAct (fuel : nat) (query : string) (s : State)
  : option State :=
  let q := normalizeText query in
  if String.eqb q "" then Some s
  else
    let cleared := map clearItem (items s) in
    '(its, firstMatchedItem) ← highlightMatchingItems fuel q 0 cleared None;
    match firstMatchedItem with
    | None => Some (mkState its (searchOpenedItems s) (log s))
    | Some i =>
        Some (openFaqItem i
                (mkState its (searchOpenedItems s) (log s ++ [ScrollIntoView i])))
    end.

(** The body shared by the two closing loops of [onSearch]. *)
Definition closeItem (i : nat) (els : FaqItem) : FaqItem * list Effect :=
  if isFaqItemOpen els && questionWrapper els
  then (removeOpenedAttr (click BySearch els), [Click BySearch i])
  else (removeOpenedAttr els, []).

(** A closing loop of [onSearch] from the item at position [i] on: every
    item of [searchOpenedItems] that [keep] does not retain is closed if it
    is open, loses the attribute and leaves the set. *)
Fixpoint closeSearchOpened (keep : FaqItem -> bool) (i : nat)
         (its : list FaqItem) (opened : gset nat)
  : list FaqItem * gset nat * list Effect :=
  match its with
  | [] => ([], opened, [])
  | els :: rest =>
      if bool_decide (i ∈ opened) && negb (keep els) then
        let '(els', eff) := closeItem i els in
        let '(rest', opened', effs) :=
          closeSearchOpened keep (S i) rest (opened ∖ {[i]}) in
        (els' :: rest', opened', eff ++ effs)
      else
        let '(rest', opened', effs) := closeSearchOpened keep (S i) rest opened in
        (els :: rest', opened', effs)
  end.

(** The [onSearch] handler of [attachSearchHandlerToInput], run with
    [input.value = value]. *)
Definition onSearch (fuel : nat) (value : string) (s : State) : option State :=
  if String.eqb (JS.trim value) "" then
    let cleared := map clearItem (items s) in
    let '(its, opened, effs) :=
      closeSearchOpened (fun _ => false) 0 cleared (searchOpenedItems s) in
    Some (mkState its opened (log s ++ effs))
  else
    let q := normalizeText value in
    let '(its, opened, effs) :=
      closeSearchOpened (fun els => itemMatchesQuery els q) 0 (items s)
                        (searchOpenedItems s) in
    findFirstMatchAndAct fuel value (mkState its opened (log s ++ effs)).

(** A click of the user on the question header of item [i]. *)
Definition userClick (i : nat) (s : State) : State :=
  match items s !! i with
  | None => s
  | Some els =>
      if questionWrapper els
      then mkState (<[i := click ByUser els]> (items s)) (searchOpenedItems s)
                   (log s ++ [Click ByUser i])
      else s
  end.

(** Nobody has clicked yet. *)
Definition unmarked (els : FaqItem) : FaqItem :=
  mkFaqItem (questionWrapper els) (questionTitle els) (answer els)
            (openedAttr els) (isOpen els) (clickTagged els) None.

(** [init]: the items are collected and tagged, the set is empty. *)
Definition init (page : list FaqItem) : State :=
  mkState (ensureClickTagging (map unmarked page)) ∅ [].

(** What happens on the page: the user clicks the header of item [i], or
    the debounced [onSearch] of a search input runs with the input holding
    [value]. *)
Inductive Event : Type :=
| UserClicks (i : nat)
| Searches (value : string).

Definition step (fuel : nat) (s : State) (e : Event) : option State :=
  match e with
  | UserClicks i => Some (userClick i s)
  | Searches value => onSearch fuel value s
  end.

Fixpoint run (fuel : nat) (s : State) (es : list Event) : option State :=
  match es with
  | [] => Some s
  | e :: es' => s' ← step fuel s e; run fuel s' es'
  end.

(** The states the page can be in after [init]. *)
Inductive reachable (page : list FaqItem) : State -> Prop :=
| reachable_init : reachable page (init page)
| reachable_step s e fuel s' :
    reachable page s -> step fuel s e = Some s' -> reachable page s'.

(** *** Notions used in the statements below *)

(** The flattened text of the two regions of an item. *)
Definition itemText (els : FaqItem) : option string * option string :=
  (textContent <$> questionTitle els, textContent <$> answer els).

(** The state of an item apart from the content of its regions. *)
Definition itemFlags (els : FaqItem)
  : bool * option string * bool * bool * option Actor :=
  (questionWrapper els, openedAttr els, isOpen els, clickTagged els, markedBy els).

(** The first item, from position [i] on, that matches [q]. *)
Definition firstMatch (q : string) (i : nat) (its : list FaqItem) : option nat :=
  (fun found => i + found.1) <$>
    list_find (fun els => itemMatchesQuery els q = true) its.

Definition regionLength (el : option Node) : nat :=
  match el with
  | Some e => String.length (textContent e)
  | None => 0
  end.

(** An amount of fuel is enough for a state when it exceeds the length of
    the text of every region. *)
Definition enoughFuel (fuel : nat) (s : State) : Prop :=
  Forall (fun els => regionLength (questionTitle els) < fuel
                     /\ regionLength (answer els) < fuel) (items s).

(** An item with a header whose attribute is ['true'] and was set by a
    click of the search flow. *)
Definition openedBySearch (els : FaqItem) : Prop :=
  questionWrapper els = true
  /\ openedAttr els = Some "true"
  /\ markedBy els = Some BySearch.

(** The invariant of [searchOpenedItems]: each of its members is such an
    item. *)
Definition searchOpenedInvariant (s : State) : Prop :=
  forall i, i ∈ searchOpenedItems s ->
    exists els, items s !! i = Some els /\ openedBySearch els.

(** The header, when there is one, carries the listener of
    [ensureClickTagging]. *)
Definition tagged (els : FaqItem) : Prop :=
  questionWrapper els = true -> clickTagged els = true.

(** The item [els'] that the highlighting pass of [findFirstMatchAndAct]
    leaves in place of [els]: no flag has changed; if [els] matches, both
    regions are cleared and highlighted, otherwise they are cleared. *)
Definition rescanned (fuel : nat) (q : string) (els els' : FaqItem) : Prop :=
  itemFlags els' = itemFlags els
  /\ itemText els' = itemText els
  /\ if itemMatchesQuery els q
     then highlightRegion fuel (clearHighlights <$> questionTitle els) q
          = Some (questionTitle els')
          /\ highlightRegion fuel (clearHighlights <$> answer els) q
             = Some (answer els')
     else els' = clearItem els.

(** An item that the search flow leaves alone: it is marked, and it is not
    in the set. *)
Definition protected (i : nat) (s : State) : Prop :=
  (i ∉ searchOpenedItems s)
  /\ exists els, items s !! i = Some els /\ openedAttrIsTrue els = true.

(** What can be observed of a state: attribute and open state of each
    item, the members of the set, the log. *)
Definition observe (s : State)
  : list (option string * bool) * list nat * list Effect :=
  (map (fun els => (openedAttr els, isOpen els)) (items s),
   elements (searchOpenedItems s), log s).

End FaqSearch.

(** ** Sample data used by the examples below *)

Module Samples.

(** [<p>The API docs, the api key<b>Api</b> and more</p>] *)
Definition paragraph : Node :=
  Element "p" [] []
          [Text "The API docs, the api key"; Element "b" [] [] [Text "Api"];
           Text " and more"].

(** [<p> API docs</p>]: a text node that starts with a space, as the text
    after an inline element does. *)
Definition leadingSpace : Node := Element "p" [] [] [Text " API docs"].



(** [<p>a</p>] *)
Definition letter : Node := Element "p" [] [] [Text "a"].

Definition scenario (existingAuth : bool) : Calculator.CalculatorState :=
  {| Calculator.engineers := 3%Q; Calculator.salary := 150000%Q;
     Calculator.users := 10000%Q; Calculator.timeline := 3%Q;
     Calculator.hasExistingAuth := existingAuth |}.


(** A page whose engineers input holds "-5" and whose salary input holds
    text that is not a number. *)
Definition negativeEngineers : Calculator.Document :=
  [ {| Calculator.name := "engineers"; Calculator.valueNumber := (-5)%Q;
       Calculator.checked := false |};
    {| Calculator.name := "salary"; Calculator.valueNumber := NaN;
       Calculator.checked := false |} ].

(** A closed (or open) FAQ item with a header, a title and an answer. *)
Definition faqItem (title answer : string) (open : bool) : FaqSearch.FaqItem :=
  FaqSearch.mkFaqItem true
    (Some (Element "h3" [] [] [Text title]))
    (Some (Element "div" ["faq-item_rich-text"] [] [Element "p" [] [] [Text answer]]))
    None open false None.

Definition page : list FaqSearch.FaqItem :=
  [ faqItem "Pricing" "What it costs." false;
    faqItem "API" "The api speaks REST." false;
    faqItem "Limits" "Rate limits of the API." false ].


End Samples.

(** * Properties *)

(** * Properties *)

(** ** Strings *)

Module JSFacts.
Import JS.

Lemma append_nil_r (s : string) : (s ++ "")%string = s.
Proof. induction s as [|c s IH]; simpl; [reflexivity | now rewrite IH]. Qed.

Lemma append_assoc (a b c : string) : ((a ++ b) ++ c)%string = (a ++ (b ++ c))%string.
Proof. induction a as [|x a IH]; simpl; [reflexivity | now rewrite IH]. Qed.

Lemma append_length (a b : string) :
  String.length (a ++ b) = String.length a + String.length b.
Proof. induction a as [|x a IH]; simpl; [reflexivity | now rewrite IH]. Qed.

Lemma append_eq_empty (a b : string) : (a ++ b)%string = "" -> a = "" /\ b = "".
Proof. destruct a; simpl; [auto | discriminate]. Qed.

Lemma eqb_empty (s : string) : String.eqb s "" = true <-> s = "".
Proof. apply String.eqb_eq. Qed.

Lemma take_drop (n : nat) (s : string) : (take n s ++ drop n s)%string = s.
Proof.
  revert s; induction n as [|n IH]; intros [|c s]; simpl; try reflexivity.
  now rewrite IH.
Qed.

Lemma drop_empty (n : nat) : drop n "" = "".
Proof. destruct n; reflexivity. Qed.

Lemma drop_drop (a b : nat) (s : string) : drop b (drop a s) = drop (a + b) s.
Proof.
  revert s; induction a as [|a IH]; intros s; simpl; [reflexivity|].
  destruct s as [|c s]; [apply drop_empty | apply IH].
Qed.

Lemma drop_length (n : nat) (s : string) :
  String.length (drop n s) = String.length s - n.
Proof.
  revert s; induction n as [|n IH]; intros [|c s]; simpl; auto with arith.
Qed.

Lemma drop_all (n : nat) (s : string) : String.length s <= n -> drop n s = "".
Proof.
  revert s; induction n as [|n IH]; intros [|c s]; simpl; intros H;
    try reflexivity; try lia.
  apply IH; lia.
Qed.

Lemma take_length (n : nat) (s : string) :
  String.length (take n s) = Nat.min n (String.length s).
Proof.
  revert s; induction n as [|n IH]; intros [|c s]; simpl; auto.
Qed.

(** The pieces cut by [slice] and [sliceFrom] at one index fit together. *)
Lemma slice_sliceFrom (s : string) (a b : nat) :
  a <= b -> (slice s a b ++ sliceFrom s b)%string = sliceFrom s a.
Proof.
  intros Hab. unfold slice, sliceFrom.
  replace (drop b s) with (drop (b - a) (drop a s)).
  - apply take_drop.
  - rewrite drop_drop. f_equal. lia.
Qed.

Lemma slice_length (s : string) (a b : nat) :
  b <= String.length s -> String.length (slice s a b) = b - a.
Proof.
  intros Hb. unfold slice. rewrite take_length, drop_length. lia.
Qed.

Lemma prefix_length (q s : string) :
  String.prefix q s = true -> String.length q <= String.length s.
Proof.
  revert s; induction q as [|c q IH]; intros [|d s]; simpl; try lia; try discriminate.
  destruct (ascii_dec c d); [|discriminate]. intros H. apply IH in H. lia.
Qed.

Lemma indexOfAt_eq (s q : string) (i : nat) :
  indexOfAt s q i =
  if String.prefix q s then Some i
  else match s with
       | EmptyString => None
       | String _ s' => indexOfAt s' q (S i)
       end.
Proof. destruct s; reflexivity. Qed.

Lemma indexOfAt_bounds (s q : string) (i idx : nat) :
  indexOfAt s q i = Some idx ->
  i <= idx /\ idx + String.length q <= i + String.length s.
Proof.
  revert i; induction s as [|c s IH]; intros i; rewrite indexOfAt_eq;
    destruct (String.prefix q _) eqn:Hp; try discriminate.
  - intros [= <-]. apply prefix_length in Hp. simpl in Hp. lia.
  - intros [= <-]. apply prefix_length in Hp. simpl in *. lia.
  - intros H. apply IH in H. simpl. lia.
Qed.

Lemma indexOfAt_prefix (s q : string) (i idx : nat) :
  indexOfAt s q i = Some idx -> String.prefix q (drop (idx - i) s) = true.
Proof.
  revert i; induction s as [|c s IH]; intros i; rewrite indexOfAt_eq;
    destruct (String.prefix q _) eqn:Hp; try discriminate.
  - intros [= <-]. now rewrite drop_empty.
  - intros [= <-]. now rewrite Nat.sub_diag.
  - intros H. pose proof (indexOfAt_bounds _ _ _ _ H) as [Hle _].
    apply IH in H. replace (idx - i) with (S (idx - S i)) by lia. exact H.
Qed.

(** A successful [indexOf] from a cursor inside the string returns a
    position at or after the cursor, with room for the whole of [q]. *)
Lemma indexOf_bounds (s q : string) (pos idx : nat) :
  indexOf s q pos = Some idx ->
  Nat.min pos (String.length s) <= idx /\ idx + String.length q <= String.length s.
Proof.
  unfold indexOf. intros H. apply indexOfAt_bounds in H.
  rewrite drop_length in H. lia.
Qed.

Lemma indexOf_prefix (s q : string) (pos idx : nat) :
  indexOf s q pos = Some idx -> String.prefix q (drop idx s) = true.
Proof.
  unfold indexOf. intros H.
  pose proof (indexOfAt_bounds _ _ _ _ H) as [Hle _].
  apply indexOfAt_prefix in H. rewrite drop_drop in H.
  replace (Nat.min pos (String.length s) + (idx - Nat.min pos (String.length s)))
    with idx in H by lia.
  exact H.
Qed.

Lemma prefix_empty (s : string) : String.prefix "" s = true.
Proof. destruct s; reflexivity. Qed.

(** Searching for the empty string succeeds at the (clamped) cursor. *)
Lemma indexOf_empty (s : string) (pos : nat) :
  indexOf s "" pos = Some (Nat.min pos (String.length s)).
Proof.
  unfold indexOf. rewrite indexOfAt_eq. now rewrite prefix_empty.
Qed.

Lemma includes_empty (s : string) : includes s "" = true.
Proof. unfold includes. now rewrite indexOf_empty. Qed.

Lemma toLowerCase_length (s : string) :
  String.length (toLowerCase s) = String.length s.
Proof. induction s as [|c s IH]; simpl; [reflexivity | now rewrite IH]. Qed.


Lemma trimStart_length (s : string) :
  String.length (trimStart s) <= String.length s.
Proof.
  induction s as [|c s IH]; simpl; [lia|].
  destruct (isWhiteSpace c); simpl; lia.
Qed.

Lemma trimEnd_length (s : string) :
  String.length (trimEnd s) <= String.length s.
Proof.
  induction s as [|c s IH]; simpl; [lia|].
  destruct (trimEnd s); [destruct (isWhiteSpace c)|]; simpl in *; lia.
Qed.

Lemma trim_length (s : string) : String.length (trim s) <= String.length s.
Proof.
  unfold trim. pose proof (trimEnd_length (trimStart s)).
  pose proof (trimStart_length s). lia.
Qed.

Lemma toLowerChar_idempotent (c : ascii) :
  toLowerChar (toLowerChar c) = toLowerChar c.
Proof. destruct c as [[] [] [] [] [] [] [] []]; reflexivity. Qed.

Lemma isWhiteSpace_toLowerChar (c : ascii) :
  isWhiteSpace (toLowerChar c) = isWhiteSpace c.
Proof. destruct c as [[] [] [] [] [] [] [] []]; reflexivity. Qed.

Lemma toLowerCase_idempotent (s : string) :
  toLowerCase (toLowerCase s) = toLowerCase s.
Proof.
  induction s as [|c s IH]; simpl; [reflexivity|].
  now rewrite toLowerChar_idempotent, IH.
Qed.

Lemma toLowerCase_trimStart (s : string) :
  toLowerCase (trimStart s) = trimStart (toLowerCase s).
Proof.
  induction s as [|c s IH]; simpl; [reflexivity|].
  rewrite isWhiteSpace_toLowerChar. destruct (isWhiteSpace c); [exact IH | reflexivity].
Qed.

Lemma toLowerCase_trimEnd (s : string) :
  toLowerCase (trimEnd s) = trimEnd (toLowerCase s).
Proof.
  induction s as [|c s IH]; simpl; [reflexivity|].
  rewrite <- IH, isWhiteSpace_toLowerChar.
  destruct (trimEnd s); simpl; [destruct (isWhiteSpace c)|]; reflexivity.
Qed.

Lemma toLowerCase_trim (s : string) : toLowerCase (trim s) = trim (toLowerCase s).
Proof. unfold trim. now rewrite toLowerCase_trimEnd, toLowerCase_trimStart. Qed.

Lemma trimEnd_idempotent (s : string) : trimEnd (trimEnd s) = trimEnd s.
Proof.
  induction s as [|c s IH]; simpl; [reflexivity|].
  destruct (trimEnd s) as [|d r] eqn:Hr.
  - destruct (isWhiteSpace c) eqn:Hc; simpl; [reflexivity | now rewrite Hc].
  - simpl in *. now rewrite IH.
Qed.

Lemma trimStart_head (s : string) :
  trimStart s = "" \/ exists c s', trimStart s = String c s' /\ isWhiteSpace c = false.
Proof.
  induction s as [|c s IH]; simpl; [now left|].
  destruct (isWhiteSpace c) eqn:Hc; [exact IH | right; eauto].
Qed.

Lemma trimStart_trimEnd_trimStart (s : string) :
  trimStart (trimEnd (trimStart s)) = trimEnd (trimStart s).
Proof.
  destruct (trimStart_head s) as [-> | (c & s' & -> & Hc)]; [reflexivity|].
  simpl. destruct (trimEnd s'); [rewrite Hc|]; simpl; now rewrite Hc.
Qed.

Lemma trim_idempotent (s : string) : trim (trim s) = trim s.
Proof.
  unfold trim. now rewrite trimStart_trimEnd_trimStart, trimEnd_idempotent.
Qed.

Lemma toLowerCase_take (n : nat) (s : string) :
  toLowerCase (take n s) = take n (toLowerCase s).
Proof.
  revert s; induction n as [|n IH]; intros [|c s]; simpl; try reflexivity.
  now rewrite IH.
Qed.

Lemma toLowerCase_drop (n : nat) (s : string) :
  toLowerCase (drop n s) = drop n (toLowerCase s).
Proof.
  revert s; induction n as [|n IH]; intros [|c s]; simpl; try reflexivity.
  apply IH.
Qed.

(** [trimEnd] cuts a suffix off. *)
Lemma trimEnd_split (s : string) : exists w, s = (trimEnd s ++ w)%string.
Proof.
  induction s as [|c s [w IH]]; [exists ""; reflexivity|].
  simpl. destruct (trimEnd s) as [|d r] eqn:Hr.
  - destruct (isWhiteSpace c).
    + exists (String c s). reflexivity.
    + exists s. reflexivity.
  - exists w. simpl in *. now rewrite <- IH.
Qed.

Lemma drop_append (n : nat) (a b : string) :
  n <= String.length a -> drop n (a ++ b) = (drop n a ++ b)%string.
Proof.
  revert a; induction n as [|n IH]; intros a Hn; [reflexivity|].
  destruct a as [|c a]; simpl in *; [lia|]. apply IH. lia.
Qed.

Lemma prefix_append (q a b : string) :
  String.prefix q a = true -> String.prefix q (a ++ b) = true.
Proof.
  revert a; induction q as [|c q IH]; intros a; [intros _; apply prefix_empty|].
  destruct a as [|d a]; simpl; [discriminate|].
  destruct (ascii_dec c d); [apply IH | discriminate].
Qed.

Lemma prefix_take (q s : string) :
  String.prefix q s = true -> take (String.length q) s = q.
Proof.
  revert s; induction q as [|c q IH]; intros s; [reflexivity|].
  destruct s as [|d s]; simpl; [discriminate|].
  destruct (ascii_dec c d) as [->|]; [|discriminate].
  intros H. now rewrite (IH s H).
Qed.

End JSFacts.

Lemma normalizeText_length (text : string) :
  String.length (normalizeText text) <= String.length text.
Proof.
  unfold normalizeText. pose proof (JSFacts.trim_length (JS.toLowerCase text)).
  rewrite JSFacts.toLowerCase_length in H. exact H.
Qed.

(** Normalising twice is normalising once. *)
Lemma normalizeText_idempotent (text : string) :
  normalizeText (normalizeText text) = normalizeText text.
Proof.
  unfold normalizeText.
  now rewrite JSFacts.toLowerCase_trim, JSFacts.toLowerCase_idempotent,
    JSFacts.trim_idempotent.
Qed.


Example normalizeText_ex : normalizeText "  Hello API " = "hello api".
Proof. reflexivity. Qed.

Example indexOf_ex1 : JS.indexOf "an api, an API" "api" 0 = Some 3.
Proof. reflexivity. Qed.

Example indexOf_ex2 : JS.indexOf "abc" "" 7 = Some 3.
Proof. reflexivity. Qed.

Example indexOf_ex3 : JS.indexOf "abc" "c" 3 = None.
Proof. reflexivity. Qed.

(** ** Text content is kept by normalisation, clearing and highlighting *)

(** Induction on nodes with the hypothesis for every child. *)
Lemma Node_nested_ind (P : Node -> Prop) :
  (forall d, P (Text d)) ->
  (forall t c a kids, Forall P kids -> P (Element t c a kids)) ->
  forall n, P n.
Proof.
  intros HText HElement. fix IH 1. intros [d | t c a kids].
  - apply HText.
  - apply HElement. induction kids as [|k kids IHk]; constructor.
    + apply IH.
    + apply IHk.
Qed.

Ltac node_induction n :=
  induction n as [? | ? ? ? ? IHkids] using Node_nested_ind.

Lemma childrenText_cons (k : Node) (kids : list Node) :
  childrenText (k :: kids) = (textContent k ++ childrenText kids)%string.
Proof. reflexivity. Qed.

Lemma childrenText_app (xs ys : list Node) :
  childrenText (xs ++ ys) = (childrenText xs ++ childrenText ys)%string.
Proof.
  induction xs as [|x xs IH]; [reflexivity|].
  rewrite <- app_comm_cons, !childrenText_cons, IH.
  now rewrite JSFacts.append_assoc.
Qed.

Lemma textContent_Element t c a kids :
  textContent (Element t c a kids) = childrenText kids.
Proof. reflexivity. Qed.

Lemma childrenText_mergeText (n : Node) (acc : list Node) :
  childrenText (mergeText n acc) = (textContent n ++ childrenText acc)%string.
Proof.
  destruct n as [d | t c a kids]; [|reflexivity].
  unfold mergeText. destruct (String.eqb d "") eqn:Hd.
  - apply String.eqb_eq in Hd. now subst d.
  - destruct acc as [|[e | t c a kids] acc]; try reflexivity.
    rewrite !childrenText_cons. simpl. now rewrite JSFacts.append_assoc.
Qed.

Lemma childrenText_fold_mergeText (kids : list Node) :
  childrenText (fold_right mergeText [] kids) = childrenText kids.
Proof.
  induction kids as [|k kids IH]; [reflexivity|].
  simpl fold_right. now rewrite childrenText_mergeText, childrenText_cons, IH.
Qed.

Lemma childrenText_ext (f : Node -> Node) (kids : list Node) :
  Forall (fun k => textContent (f k) = textContent k) kids ->
  childrenText (map f kids) = childrenText kids.
Proof.
  induction 1 as [|k kids Hk _ IH]; [reflexivity|].
  simpl map. now rewrite !childrenText_cons, Hk, IH.
Qed.

Lemma textContent_normalize (n : Node) : textContent (normalize n) = textContent n.
Proof.
  node_induction n; [reflexivity|].
  simpl normalize. rewrite !textContent_Element, childrenText_fold_mergeText.
  now apply childrenText_ext.
Qed.

Lemma replaceFirstMark_Element t c a kids :
  replaceFirstMark (Element t c a kids) =
  match replaceFirstMarkIn kids with
  | Some (kids', true) => Some (normalize (Element t c a kids'))
  | Some (kids', false) => Some (Element t c a kids')
  | None => None
  end.
Proof. reflexivity. Qed.

Lemma textContent_replaceFirstMark (n n' : Node) :
  replaceFirstMark n = Some n' -> textContent n' = textContent n.
Proof.
  revert n'. node_induction n; intros n'; [discriminate|].
  rewrite replaceFirstMark_Element.
  assert (Hin : forall kids' here, replaceFirstMarkIn kids = Some (kids', here) ->
                                   childrenText kids' = childrenText kids).
  { clear n'. induction IHkids as [|k kids Hk _ IH]; intros kids' here; [discriminate|].
    simpl. destruct (isHighlightMark k).
    - intros [= <- <-]. reflexivity.
    - destruct (replaceFirstMark k) as [k'|] eqn:Hk'.
      + intros [= <- <-]. rewrite !childrenText_cons. now rewrite (Hk k').
      + destruct (replaceFirstMarkIn kids) as [[rest' h]|] eqn:Hrest; [|discriminate].
        intros [= <- <-]. rewrite !childrenText_cons. now rewrite (IH rest' h). }
  destruct (replaceFirstMarkIn kids) as [[kids' [|]]|]; [| |discriminate];
    specialize (Hin _ _ eq_refl); intros [= <-].
  - etransitivity; [apply (textContent_normalize (Element t c a kids'))|].
    now rewrite !textContent_Element.
  - now rewrite !textContent_Element.
Qed.

Lemma textContent_clearStep (cur : Node) : textContent (clearStep cur) = textContent cur.
Proof.
  unfold clearStep. destruct (replaceFirstMark cur) eqn:H; [|reflexivity].
  now apply textContent_replaceFirstMark.
Qed.

Lemma clearHighlights_unfold (container : Node) :
  clearHighlights container =
  fold_left (fun cur _ => clearStep cur) (querySelectorAllMarks container) container.
Proof. reflexivity. Qed.

Lemma textContent_iter_clearStep {A} (l : list A) (c : Node) :
  textContent (fold_left (fun cur _ => clearStep cur) l c) = textContent c.
Proof.
  revert c; induction l as [|x l IH]; intros c; [reflexivity|].
  simpl. now rewrite IH, textContent_clearStep.
Qed.

(** Clearing never changes the flattened text of a container. *)
Lemma textContent_clearHighlights (container : Node) :
  textContent (clearHighlights container) = textContent container.
Proof. rewrite clearHighlights_unfold. apply textContent_iter_clearStep. Qed.

(** A container without highlight marks is returned as it is. *)
Lemma clearHighlights_no_marks (container : Node) :
  querySelectorAllMarks container = [] -> clearHighlights container = container.
Proof. unfold clearHighlights. now intros ->. Qed.

(** ** The highlighting loop *)

Lemma textContent_pushMark (s : string) : textContent (pushMark s) = s.
Proof.
  unfold pushMark. destruct (String.eqb s "") eqn:Hs.
  - apply String.eqb_eq in Hs. now subst.
  - simpl. apply JSFacts.append_nil_r.
Qed.

Lemma isHighlightMark_pushMark (s : string) : isHighlightMark (pushMark s) = true.
Proof. reflexivity. Qed.

Lemma highlightLoop_S fuel original lower q pos :
  highlightLoop (S fuel) original lower q pos =
  match JS.indexOf lower q pos with
  | None => Some [pushText (JS.sliceFrom original pos)]
  | Some idx =>
      rest ← highlightLoop fuel original lower q (idx + String.length q);
      Some ((if pos <? idx then [pushText (JS.slice original pos idx)] else [])
              ++ pushMark (JS.slice original idx (idx + String.length q)) :: rest)
  end.
Proof. reflexivity. Qed.

(** The fragments built from cursor [pos] on spell the rest of the original
    text, whatever [lower] is. *)
Lemma highlightLoop_text fuel original lower q :
  forall pos r,
    pos <= String.length lower ->
    highlightLoop fuel original lower q pos = Some r ->
    childrenText r = JS.sliceFrom original pos.
Proof.
  induction fuel as [|fuel IH]; intros pos r Hpos; [discriminate|].
  rewrite highlightLoop_S.
  destruct (JS.indexOf lower q pos) as [idx|] eqn:Hidx.
  - pose proof (JSFacts.indexOf_bounds _ _ _ _ Hidx) as [Hlo Hhi].
    destruct (highlightLoop fuel original lower q (idx + String.length q))
      as [rest|] eqn:Hrest; [|discriminate].
    simpl. intros [= <-].
    apply IH in Hrest; [|exact Hhi].
    rewrite childrenText_app, childrenText_cons, textContent_pushMark, Hrest.
    rewrite JSFacts.slice_sliceFrom by lia.
    destruct (pos <? idx) eqn:Hlt.
    + apply Nat.ltb_lt in Hlt.
      change (childrenText [pushText (JS.slice original pos idx)])
        with (JS.slice original pos idx ++ "")%string.
      rewrite JSFacts.append_nil_r. apply JSFacts.slice_sliceFrom. lia.
    + apply Nat.ltb_ge in Hlt. replace idx with pos by lia. reflexivity.
  - intros [= <-]. unfold childrenText, pushText. simpl.
    apply JSFacts.append_nil_r.
Qed.

(** With a non-empty needle the loop stops within [length lower - pos + 1]
    iterations. *)
Lemma highlightLoop_terminates fuel original lower q :
  q <> "" ->
  forall pos,
    String.length lower - pos < fuel ->
    is_Some (highlightLoop fuel original lower q pos).
Proof.
  intros Hq. assert (Hlen : 0 < String.length q) by (destruct q; simpl; [congruence | lia]).
  induction fuel as [|fuel IH]; intros pos Hfuel; [lia|].
  rewrite highlightLoop_S.
  destruct (JS.indexOf lower q pos) as [idx|] eqn:Hidx; [|eauto].
  pose proof (JSFacts.indexOf_bounds _ _ _ _ Hidx) as [Hlo Hhi].
  destruct (IH (idx + String.length q)) as [rest Hrest]; [lia|].
  rewrite Hrest. simpl. eauto.
Qed.

(** With the empty needle the loop never stops: no amount of fuel is enough. *)
Lemma highlightLoop_empty_needle fuel original lower pos :
  highlightLoop fuel original lower "" pos = None.
Proof.
  revert pos; induction fuel as [|fuel IH]; intros pos; [reflexivity|].
  rewrite highlightLoop_S, JSFacts.indexOf_empty, IH. reflexivity.
Qed.

Lemma highlightLoop_more_fuel fuel fuel' original lower q :
  fuel <= fuel' ->
  forall pos r,
    highlightLoop fuel original lower q pos = Some r ->
    highlightLoop fuel' original lower q pos = Some r.
Proof.
  revert fuel'; induction fuel as [|fuel IH]; intros fuel' Hle pos r; [discriminate|].
  destruct fuel' as [|fuel']; [lia|].
  rewrite !highlightLoop_S.
  destruct (JS.indexOf lower q pos) as [idx|]; [|auto].
  destruct (highlightLoop fuel original lower q (idx + String.length q))
    as [rest|] eqn:Hrest; [|discriminate].
  rewrite (IH fuel' ltac:(lia) _ _ Hrest). auto.
Qed.

(** In a text node that does not start with white space every mark holds
    the needle in some letter case: the positions found in the lower-case,
    trimmed copy are positions of the original then. *)
Lemma highlightLoop_marks_spell_needle fuel original q :
  JS.trimStart (JS.toLowerCase original) = JS.toLowerCase original ->
  forall pos r,
    highlightLoop fuel original (normalizeText original) q pos = Some r ->
    Forall (fun x => isHighlightMark x = true -> JS.toLowerCase (textContent x) = q) r.
Proof.
  intros Hstart.
  assert (Hlower : exists w, JS.toLowerCase original = (normalizeText original ++ w)%string).
  { unfold normalizeText, JS.trim. rewrite Hstart. apply JSFacts.trimEnd_split. }
  destruct Hlower as [w Hw].
  induction fuel as [|fuel IH]; intros pos r; [discriminate|].
  rewrite highlightLoop_S.
  destruct (JS.indexOf (normalizeText original) q pos) as [idx|] eqn:Hidx.
  - destruct (highlightLoop fuel original _ q (idx + String.length q))
      as [rest|] eqn:Hrest; [|discriminate].
    simpl. intros [= <-]. apply Forall_app. split.
    + destruct (pos <? idx); repeat constructor. discriminate.
    + constructor; [|now apply (IH _ _ Hrest)].
      intros _. rewrite textContent_pushMark. unfold JS.slice.
      rewrite JSFacts.toLowerCase_take, JSFacts.toLowerCase_drop, Hw.
      pose proof (JSFacts.indexOf_bounds _ _ _ _ Hidx) as [_ Hhi].
      rewrite JSFacts.drop_append by lia.
      replace (idx + String.length q - idx) with (String.length q) by lia.
      apply JSFacts.prefix_take, JSFacts.prefix_append.
      eapply JSFacts.indexOf_prefix; eauto.
  - intros [= <-]. repeat constructor. discriminate.
Qed.

(** ** highlightNode and highlightMatchesInElement *)

Lemma highlightNode_Element fuel q t c a kids :
  highlightNode fuel q (Element t c a kids) =
  kids' ← highlightChildren fuel q kids; Some [Element t c a kids'].
Proof.
  simpl. f_equal.
  induction kids as [|k kids IH]; [reflexivity|].
  simpl. now rewrite IH.
Qed.

Lemma highlightNode_Text fuel q original :
  highlightNode fuel q (Text original) =
  if acceptNode q original
  then highlightLoop fuel original (normalizeText original) q 0
  else Some [Text original].
Proof. reflexivity. Qed.

Lemma highlightChildren_cons fuel q k rest :
  highlightChildren fuel q (k :: rest) =
  r ← highlightNode fuel q k; rs ← highlightChildren fuel q rest; Some (r ++ rs).
Proof. reflexivity. Qed.

Lemma highlightNode_text fuel q (n : Node) :
  forall r, highlightNode fuel q n = Some r -> childrenText r = textContent n.
Proof.
  node_induction n; intros r.
  - rewrite highlightNode_Text. destruct (acceptNode q d).
    + intros H. apply highlightLoop_text in H; [exact H | lia].
    + intros [= <-]. unfold childrenText. simpl. apply JSFacts.append_nil_r.
  - rewrite highlightNode_Element.
    destruct (highlightChildren fuel q kids) as [kids'|] eqn:Hk; [|discriminate].
    simpl. intros [= <-].
    unfold childrenText at 1. simpl. rewrite JSFacts.append_nil_r.
    fold (childrenText kids'). fold (childrenText kids).
    revert kids' Hk. induction IHkids as [|k kids Hk0 _ IH]; intros kids'.
    + intros [= <-]. reflexivity.
    + rewrite highlightChildren_cons.
      destruct (highlightNode fuel q k) as [r|] eqn:Hr; [|discriminate].
      destruct (highlightChildren fuel q kids) as [rs|] eqn:Hrs; [|discriminate].
      simpl. intros [= <-].
      rewrite childrenText_app, childrenText_cons, (Hk0 r eq_refl), (IH rs eq_refl).
      reflexivity.
Qed.

Lemma highlightChildren_text fuel q kids kids' :
  highlightChildren fuel q kids = Some kids' -> childrenText kids' = childrenText kids.
Proof.
  revert kids'; induction kids as [|k kids IH]; intros kids'.
  - intros [= <-]. reflexivity.
  - rewrite highlightChildren_cons.
    destruct (highlightNode fuel q k) as [r|] eqn:Hr; [|discriminate].
    destruct (highlightChildren fuel q kids) as [rs|] eqn:Hrs; [|discriminate].
    simpl. intros [= <-].
    rewrite childrenText_app, childrenText_cons, (IH rs eq_refl).
    now rewrite (highlightNode_text _ _ _ _ Hr).
Qed.

(** Highlighting never changes the flattened text of a container. *)
Lemma textContent_highlight fuel container query container' :
  highlightMatchesInElement fuel container query = Some container' ->
  textContent container' = textContent container.
Proof.
  unfold highlightMatchesInElement. destruct (String.eqb query "").
  - now intros [= <-].
  - destruct container as [d | t c a kids]; [now intros [= <-]|].
    destruct (highlightChildren fuel (normalizeText query) kids) as [kids'|] eqn:Hk;
      [|discriminate].
    simpl. intros [= <-]. rewrite !textContent_Element.
    eapply highlightChildren_text; eauto.
Qed.

Lemma childrenText_length_cons (k : Node) (kids : list Node) :
  String.length (childrenText (k :: kids)) =
  String.length (textContent k) + String.length (childrenText kids).
Proof. rewrite childrenText_cons. apply JSFacts.append_length. Qed.

Lemma highlightNode_terminates fuel q (n : Node) :
  q <> "" ->
  String.length (textContent n) < fuel ->
  is_Some (highlightNode fuel q n).
Proof.
  intros Hq. node_induction n; intros Hfuel.
  - rewrite highlightNode_Text. destruct (acceptNode q d); [|eauto].
    apply highlightLoop_terminates; [exact Hq|].
    pose proof (normalizeText_length d). simpl in Hfuel. lia.
  - rewrite highlightNode_Element. rewrite textContent_Element in Hfuel.
    assert (Hk : is_Some (highlightChildren fuel q kids)).
    { induction IHkids as [|k kids Hk0 _ IH]; [simpl; eauto|].
      rewrite childrenText_length_cons in Hfuel.
      rewrite highlightChildren_cons.
      destruct Hk0 as [r ->]; [lia|]. destruct IH as [rs ->]; [lia|].
      simpl. eauto. }
    destruct Hk as [kids' ->]. simpl. eauto.
Qed.

Lemma highlightChildren_terminates fuel q (kids : list Node) :
  q <> "" ->
  String.length (childrenText kids) < fuel ->
  is_Some (highlightChildren fuel q kids).
Proof.
  intros Hq. induction kids as [|k kids IH]; intros Hfuel; [simpl; eauto|].
  rewrite childrenText_length_cons in Hfuel.
  rewrite highlightChildren_cons.
  destruct (highlightNode_terminates fuel q k Hq) as [r ->]; [lia|].
  destruct IH as [rs ->]; [lia|]. simpl. eauto.
Qed.

(** The highlight operation returns for every query that is not blank, once
    the fuel exceeds the length of the container's text. *)
Lemma highlight_terminates fuel container query :
  normalizeText query <> "" ->
  String.length (textContent container) < fuel ->
  is_Some (highlightMatchesInElement fuel container query).
Proof.
  intros Hq Hfuel. unfold highlightMatchesInElement.
  destruct (String.eqb query ""); [eauto|].
  destruct container as [d | t c a kids]; [eauto|].
  destruct (highlightChildren_terminates fuel (normalizeText query) kids Hq Hfuel)
    as [kids' ->].
  simpl. eauto.
Qed.

(** The empty query is a no-op. *)
Lemma highlight_empty_query fuel container :
  highlightMatchesInElement fuel container "" = Some container.
Proof. reflexivity. Qed.

Lemma highlightNode_blank_diverges fuel (n : Node) :
  containsText n = true -> highlightNode fuel "" n = None.
Proof.
  node_induction n; intros Hn.
  - rewrite highlightNode_Text. unfold acceptNode.
    rewrite JSFacts.includes_empty. apply highlightLoop_empty_needle.
  - rewrite highlightNode_Element. simpl in Hn.
    assert (Hk : highlightChildren fuel "" kids = None); [|now rewrite Hk].
    induction IHkids as [|k kids Hk0 _ IH]; [discriminate|].
    simpl in Hn. rewrite highlightChildren_cons.
    destruct (containsText k).
    + now rewrite Hk0.
    + rewrite IH by exact Hn. now destruct (highlightNode fuel "" k).
Qed.

(** A query of white space only passes the guard [if (!query) return] and is
    normalised to the empty needle: on a container with a text node the
    loop then runs for ever. *)
Lemma highlight_blank_query_diverges fuel container query :
  query <> "" -> normalizeText query = "" ->
  (exists t c a kids, container = Element t c a kids /\ existsb containsText kids = true) ->
  highlightMatchesInElement fuel container query = None.
Proof.
  intros Hne Hblank (t & c & a & kids & -> & Hkids).
  unfold highlightMatchesInElement.
  destruct (String.eqb query "") eqn:Hq; [apply String.eqb_eq in Hq; contradiction|].
  rewrite Hblank.
  pose proof (highlightNode_blank_diverges fuel (Element t c a kids) Hkids) as H.
  rewrite highlightNode_Element in H.
  destruct (highlightChildren fuel "" kids); [discriminate | reflexivity].
Qed.

(** ** Merging text nodes *)

Lemma mergeText_empty (acc : list Node) : mergeText (Text "") acc = acc.
Proof. reflexivity. Qed.

Lemma mergeText_Text_nonempty (d : string) (acc : list Node) :
  d <> "" ->
  mergeText (Text d) acc =
  match acc with
  | Text e :: acc' => Text (d ++ e)%string :: acc'
  | _ => Text d :: acc
  end.
Proof.
  intros Hd. unfold mergeText. destruct (String.eqb d "") eqn:E; [|reflexivity].
  apply String.eqb_eq in E. contradiction.
Qed.

Lemma mergeText_assoc (a b : string) (acc : list Node) :
  mergeText (Text a) (mergeText (Text b) acc) = mergeText (Text (a ++ b)) acc.
Proof.
  destruct (String.eqb b "") eqn:Hb.
  - apply String.eqb_eq in Hb. subst b.
    now rewrite mergeText_empty, JSFacts.append_nil_r.
  - apply String.eqb_neq in Hb.
    destruct (String.eqb a "") eqn:Ha.
    + apply String.eqb_eq in Ha. subst a. reflexivity.
    + apply String.eqb_neq in Ha.
      assert (Hab : (a ++ b)%string <> "").
      { intros H. apply JSFacts.append_eq_empty in H. tauto. }
      rewrite (mergeText_Text_nonempty b) by exact Hb.
      rewrite (mergeText_Text_nonempty (a ++ b)) by exact Hab.
      destruct acc as [|[e | t c x kids] acc];
        rewrite (mergeText_Text_nonempty a) by exact Ha; try reflexivity.
      now rewrite JSFacts.append_assoc.
Qed.

(** A run of text-like nodes in front of [acc] merges into one text node. *)
Lemma fold_mergeText_texts (r : list Node) (acc : list Node) :
  fold_right mergeText acc (map (fun x => Text (textContent x)) r) =
  mergeText (Text (childrenText r)) acc.
Proof.
  induction r as [|x r IH]; [reflexivity|].
  change (mergeText (Text (textContent x))
            (fold_right mergeText acc (map (fun x => Text (textContent x)) r)) =
          mergeText (Text (childrenText (x :: r))) acc).
  rewrite IH, mergeText_assoc. reflexivity.
Qed.

Lemma mergedList_mergeText (x : Node) (acc : list Node) :
  mergedList acc = true -> mergedList (mergeText x acc) = true.
Proof.
  intros Hacc. destruct x as [d | t c a kids]; [|exact Hacc].
  unfold mergeText. destruct (String.eqb d "") eqn:Hd; [exact Hacc|].
  destruct acc as [|[e | t c a kids] acc]; simpl in *.
  - now rewrite Hd.
  - apply andb_true_iff in Hacc as [Hacc Hm]. apply andb_true_iff in Hacc as [He Hnext].
    rewrite Hnext, Hm, !andb_true_r. apply negb_true_iff, String.eqb_neq.
    intros H. apply JSFacts.append_eq_empty in H as [-> _]. discriminate.
  - now rewrite Hd, Hacc.
Qed.

Lemma mergedList_fold (kids : list Node) :
  mergedList (fold_right mergeText [] kids) = true.
Proof.
  induction kids as [|k kids IH]; [reflexivity|].
  simpl. now apply mergedList_mergeText.
Qed.

Lemma mergedList_fixed (kids : list Node) :
  mergedList kids = true -> fold_right mergeText [] kids = kids.
Proof.
  induction kids as [|k kids IH]; [reflexivity|].
  destruct k as [d | t c a ks]; simpl.
  - rewrite !andb_true_iff, negb_true_iff. intros [[Hd Hnext] Hm].
    rewrite (IH Hm). unfold mergeText. rewrite Hd.
    destruct kids as [|[e|? ? ? ?] kids]; try reflexivity.
    discriminate.
  - intros Hm. rewrite (IH Hm). reflexivity.
Qed.

Lemma mergedList_iff (kids : list Node) :
  mergedList kids = true <-> fold_right mergeText [] kids = kids.
Proof.
  split; [apply mergedList_fixed|]. intros <-. apply mergedList_fold.
Qed.

(** Whether a child list is merged depends on its text nodes only. *)
Lemma mergedList_shape (kids kids' : list Node) :
  map textShape kids = map textShape kids' -> mergedList kids = mergedList kids'.
Proof.
  revert kids'; induction kids as [|k kids IH]; intros [|k' kids']; try discriminate;
    [reflexivity|].
  simpl map. intros [= Hk Hrest]. specialize (IH _ Hrest).
  destruct k as [d|? ? ? ?], k' as [d'|? ? ? ?]; try discriminate; simpl.
  - injection Hk as ->. rewrite IH.
    destruct kids as [|[?|? ? ? ?] ?], kids' as [|[?|? ? ? ?] ?];
      try discriminate; reflexivity.
  - exact IH.
Qed.

Lemma Forall_fold_mergeText (P : Node -> Prop) (kids : list Node) :
  (forall d, P (Text d)) -> Forall P kids -> Forall P (fold_right mergeText [] kids).
Proof.
  intros HT. induction 1 as [|k kids Hk _ IH]; [constructor|].
  simpl. destruct k as [d | t c a ks]; [|now constructor].
  unfold mergeText at 1. destruct (String.eqb d ""); [exact IH|].
  destruct (fold_right mergeText [] kids) as [|[e|? ? ? ?] acc].
  - constructor; auto.
  - inversion IH; subst. constructor; auto.
  - constructor; auto.
Qed.

(** ** normalize *)

Lemma isHighlightMark_normalize (n : Node) :
  isHighlightMark (normalize n) = isHighlightMark n.
Proof. destruct n; reflexivity. Qed.

Lemma isText_normalize (n : Node) : isText (normalize n) = isText n.
Proof. destruct n; reflexivity. Qed.

Lemma normalize_Element t c a kids :
  normalize (Element t c a kids) =
  Element t c a (fold_right mergeText [] (map normalize kids)).
Proof. reflexivity. Qed.

Lemma isNormalized_fixed (n : Node) : isNormalized n = true -> normalize n = n.
Proof.
  node_induction n; [reflexivity|].
  simpl isNormalized. rewrite andb_true_iff, forallb_forall. intros [Hm Hall].
  rewrite normalize_Element. f_equal.
  assert (Hmap : map normalize kids = kids).
  { clear Hm. induction IHkids as [|k kids Hk _ IH]; [reflexivity|].
    simpl. rewrite Hk, IH; [reflexivity| |].
    - intros x Hx. apply Hall. now right.
    - apply Hall. now left. }
  rewrite Hmap. now apply mergedList_fixed.
Qed.

Lemma isNormalized_normalize (n : Node) : isNormalized (normalize n) = true.
Proof.
  node_induction n; [reflexivity|].
  rewrite normalize_Element. simpl isNormalized.
  rewrite mergedList_fold. simpl. apply forallb_forall.
  apply List.Forall_forall. apply Forall_fold_mergeText; [reflexivity|].
  apply List.Forall_forall. intros x Hx. apply in_map_iff in Hx as (k & <- & Hk).
  rewrite List.Forall_forall in IHkids. now apply IHkids.
Qed.

(** [isNormalized] decides that [normalize] changes nothing. *)
Lemma isNormalized_iff (n : Node) : isNormalized n = true <-> normalize n = n.
Proof.
  split; [apply isNormalized_fixed|]. intros <-. apply isNormalized_normalize.
Qed.

Lemma settled_normalize (n : Node) : settled (normalize n) = true.
Proof.
  node_induction n; [reflexivity|].
  rewrite normalize_Element. simpl settled.
  rewrite mergedList_fold, orb_true_r. simpl. apply forallb_forall.
  apply List.Forall_forall. apply Forall_fold_mergeText; [reflexivity|].
  apply List.Forall_forall. intros x Hx. apply in_map_iff in Hx as (k & <- & Hk).
  rewrite List.Forall_forall in IHkids. rewrite (IHkids k Hk). apply orb_true_r.
Qed.

(** ** flatten, skeleton and countMarks across normalisation *)

Lemma flatten_Element t c a kids :
  flatten (Element t c a kids) =
  Element t c a (fold_right mergeText [] (map flattenChild kids)).
Proof. reflexivity. Qed.

Lemma skeleton_Element t c a kids :
  skeleton (Element t c a kids) = Element t c a (flat_map skeletonChild kids).
Proof. reflexivity. Qed.

Lemma countMarks_Element t c a kids :
  countMarks (Element t c a kids) = countMarksIn kids.
Proof. reflexivity. Qed.

Lemma countMarksIn_cons k kids :
  countMarksIn (k :: kids) =
  (if isHighlightMark k then 1 else 0) + countMarks k + countMarksIn kids.
Proof. reflexivity. Qed.

Lemma countMarksIn_app xs ys :
  countMarksIn (xs ++ ys) = countMarksIn xs + countMarksIn ys.
Proof.
  induction xs as [|x xs IH]; [reflexivity|].
  rewrite <- app_comm_cons, !countMarksIn_cons, IH. lia.
Qed.

Lemma flattenChild_Text d : flattenChild (Text d) = Text d.
Proof. reflexivity. Qed.

Lemma flattenChild_mark m :
  isHighlightMark m = true -> flattenChild m = Text (textContent m).
Proof. unfold flattenChild. now intros ->. Qed.

Lemma flattenChild_other k :
  isHighlightMark k = false -> flattenChild k = flatten k.
Proof. unfold flattenChild. now intros ->. Qed.

Lemma flattenChild_mergeText (x : Node) (acc : list Node) :
  fold_right mergeText [] (map flattenChild (mergeText x acc)) =
  mergeText (flattenChild x) (fold_right mergeText [] (map flattenChild acc)).
Proof.
  destruct x as [d | t c a kids]; [|reflexivity].
  rewrite flattenChild_Text. unfold mergeText at 2.
  destruct (String.eqb d "") eqn:Hd.
  - apply String.eqb_eq in Hd. subst d. reflexivity.
  - destruct acc as [|[e | t c a kids] acc]; try reflexivity.
    change (mergeText (Text (d ++ e))
              (fold_right mergeText [] (map flattenChild acc)) =
            mergeText (Text d)
              (mergeText (Text e) (fold_right mergeText [] (map flattenChild acc)))).
    now rewrite mergeText_assoc.
Qed.

Lemma flattenChild_fold_mergeText (l : list Node) :
  fold_right mergeText [] (map flattenChild (fold_right mergeText [] l)) =
  fold_right mergeText [] (map flattenChild l).
Proof.
  induction l as [|x l IH]; [reflexivity|].
  simpl. now rewrite flattenChild_mergeText, IH.
Qed.

Lemma flatten_normalize (n : Node) : flatten (normalize n) = flatten n.
Proof.
  node_induction n; [reflexivity|].
  rewrite normalize_Element, !flatten_Element, flattenChild_fold_mergeText.
  do 2 f_equal. rewrite map_map. apply List.map_ext_in. intros k Hk.
  rewrite List.Forall_forall in IHkids. unfold flattenChild.
  now rewrite isHighlightMark_normalize, textContent_normalize, (IHkids k Hk).
Qed.

Lemma skeletonChild_mergeText (x : Node) (acc : list Node) :
  flat_map skeletonChild (mergeText x acc) =
  skeletonChild x ++ flat_map skeletonChild acc.
Proof.
  destruct x as [d | t c a kids]; [|reflexivity].
  unfold mergeText. destruct (String.eqb d ""); [reflexivity|].
  destruct acc as [|[e | t c a kids] acc]; reflexivity.
Qed.

Lemma skeletonChild_fold_mergeText (l : list Node) :
  flat_map skeletonChild (fold_right mergeText [] l) = flat_map skeletonChild l.
Proof.
  induction l as [|x l IH]; [reflexivity|].
  simpl. now rewrite skeletonChild_mergeText, IH.
Qed.

Lemma skeleton_normalize (n : Node) : skeleton (normalize n) = skeleton n.
Proof.
  node_induction n; [reflexivity|].
  rewrite normalize_Element, !skeleton_Element, skeletonChild_fold_mergeText.
  f_equal. induction IHkids as [|k kids Hk _ IH]; [reflexivity|].
  simpl. rewrite IH. f_equal. unfold skeletonChild.
  now rewrite isText_normalize, isHighlightMark_normalize, Hk.
Qed.

Lemma countMarksIn_mergeText (x : Node) (acc : list Node) :
  countMarksIn (mergeText x acc) = countMarksIn (x :: acc).
Proof.
  destruct x as [d | t c a kids]; [|reflexivity].
  unfold mergeText. destruct (String.eqb d ""); [reflexivity|].
  destruct acc as [|[e | t c a kids] acc]; reflexivity.
Qed.

Lemma countMarksIn_fold_mergeText (l : list Node) :
  countMarksIn (fold_right mergeText [] l) = countMarksIn l.
Proof.
  induction l as [|x l IH]; [reflexivity|].
  simpl. now rewrite countMarksIn_mergeText, !countMarksIn_cons, IH.
Qed.

Lemma countMarks_normalize (n : Node) : countMarks (normalize n) = countMarks n.
Proof.
  node_induction n; [reflexivity|].
  rewrite normalize_Element, !countMarks_Element, countMarksIn_fold_mergeText.
  induction IHkids as [|k kids Hk _ IH]; [reflexivity|].
  simpl map. rewrite !countMarksIn_cons, IH, Hk, isHighlightMark_normalize.
  reflexivity.
Qed.

(** ** One run of the callback of clearHighlights *)

Lemma replaceFirstMarkIn_cons k rest :
  replaceFirstMarkIn (k :: rest) =
  if isHighlightMark k
  then Some (Text (textContent k) :: rest, true)
  else match replaceFirstMark k with
       | Some k' => Some (k' :: rest, false)
       | None =>
           match replaceFirstMarkIn rest with
           | Some (rest', here) => Some (k :: rest', here)
           | None => None
           end
       end.
Proof. reflexivity. Qed.

Lemma replaceFirstMarkIn_here kids kids' :
  replaceFirstMarkIn kids = Some (kids', true) ->
  exists pre m post,
    kids = pre ++ m :: post /\ isHighlightMark m = true
    /\ kids' = pre ++ Text (textContent m) :: post.
Proof.
  revert kids'; induction kids as [|k kids IH]; intros kids'; [discriminate|].
  rewrite replaceFirstMarkIn_cons. destruct (isHighlightMark k) eqn:Hk.
  - intros [= <-]. exists [], k, kids. auto.
  - destruct (replaceFirstMark k); [discriminate|].
    destruct (replaceFirstMarkIn kids) as [[rest' here]|]; [|discriminate].
    intros [= <- ->]. destruct (IH _ eq_refl) as (pre & m & post & -> & Hm & ->).
    exists (k :: pre), m, post. auto.
Qed.

Lemma replaceFirstMarkIn_below kids kids' :
  replaceFirstMarkIn kids = Some (kids', false) ->
  exists pre k k' post,
    kids = pre ++ k :: post /\ isHighlightMark k = false
    /\ replaceFirstMark k = Some k' /\ kids' = pre ++ k' :: post.
Proof.
  revert kids'; induction kids as [|k kids IH]; intros kids'; [discriminate|].
  rewrite replaceFirstMarkIn_cons. destruct (isHighlightMark k) eqn:Hk; [discriminate|].
  destruct (replaceFirstMark k) as [k'|] eqn:Hk'.
  - intros [= <-]. exists [], k, k', kids. auto.
  - destruct (replaceFirstMarkIn kids) as [[rest' here]|]; [|discriminate].
    intros [= <- ->].
    destruct (IH _ eq_refl) as (pre & k0 & k0' & post & -> & Hm & Hr & ->).
    exists (k :: pre), k0, k0', post. auto.
Qed.

Lemma replaceFirstMarkIn_None kids :
  replaceFirstMarkIn kids = None ->
  Forall (fun k => isHighlightMark k = false /\ replaceFirstMark k = None) kids.
Proof.
  induction kids as [|k kids IH]; [constructor|].
  rewrite replaceFirstMarkIn_cons. destruct (isHighlightMark k) eqn:Hk; [discriminate|].
  destruct (replaceFirstMark k) eqn:Hk'; [discriminate|].
  destruct (replaceFirstMarkIn kids) as [[rest' here]|]; [discriminate|].
  intros _. constructor; auto.
Qed.

(** The step keeps the element it is applied to. *)
Lemma replaceFirstMark_head n n' :
  replaceFirstMark n = Some n' ->
  exists t c a kids kids', n = Element t c a kids /\ n' = Element t c a kids'.
Proof.
  destruct n as [d | t c a kids]; [discriminate|].
  rewrite replaceFirstMark_Element.
  destruct (replaceFirstMarkIn kids) as [[kids' [|]]|]; [| |discriminate];
    intros [= <-]; eauto 10.
Qed.

Lemma replaceFirstMark_isHighlightMark n n' :
  replaceFirstMark n = Some n' -> isHighlightMark n' = isHighlightMark n.
Proof.
  intros H. apply replaceFirstMark_head in H as (t & c & a & kids & kids' & -> & ->).
  reflexivity.
Qed.

Lemma replaceFirstMark_isText n n' :
  replaceFirstMark n = Some n' -> isText n' = false /\ isText n = false.
Proof.
  intros H. apply replaceFirstMark_head in H as (t & c & a & kids & kids' & -> & ->).
  auto.
Qed.

(** What one step keeps: the flattened tree, the elements outside the marks,
    the [settled] invariant; and it removes at least one mark. *)
Lemma replaceFirstMark_invariants (n : Node) :
  forall n',
    replaceFirstMark n = Some n' ->
    flatten n' = flatten n
    /\ skeleton n' = skeleton n
    /\ countMarks n' < countMarks n
    /\ (settled n = true -> settled n' = true).
Proof.
  node_induction n; intros n'; [discriminate|].
  rewrite replaceFirstMark_Element.
  destruct (replaceFirstMarkIn kids) as [[kids' [|]]|] eqn:Hin; [| |discriminate];
    intros Heq; apply (inj Some) in Heq; subst n'.
  - (* the mark is a child: replaced, then the element is normalised *)
    apply replaceFirstMarkIn_here in Hin as (pre & m & post & -> & Hm & ->).
    assert (Hsk : skeletonChild m = []) by (unfold skeletonChild; now rewrite Hm, andb_false_r).
    split; [|split; [|split]].
    + rewrite flatten_normalize, !flatten_Element, !map_app, !map_cons.
      now rewrite (flattenChild_mark m Hm), flattenChild_Text.
    + rewrite skeleton_normalize, !skeleton_Element, !flat_map_app.
      change (flat_map skeletonChild (?x :: ?l)) with (skeletonChild x ++ flat_map skeletonChild l).
      now rewrite Hsk.
    + rewrite countMarks_normalize, !countMarks_Element, !countMarksIn_app.
      rewrite !countMarksIn_cons, Hm. simpl. lia.
    + intros _. apply settled_normalize.
  - (* the mark is further down *)
    apply replaceFirstMarkIn_below in Hin
      as (pre & k & k' & post & -> & Hm & Hk & ->).
    rewrite List.Forall_forall in IHkids.
    destruct (IHkids k ltac:(apply in_elt) k' Hk) as (Hf & Hs & Hc & Hset).
    pose proof (replaceFirstMark_isHighlightMark _ _ Hk) as Hm'. rewrite Hm in Hm'.
    pose proof (replaceFirstMark_isText _ _ Hk) as [Ht' Ht].
    split; [|split; [|split]].
    + rewrite !flatten_Element, !map_app, !map_cons.
      now rewrite (flattenChild_other k Hm), (flattenChild_other k' Hm'), Hf.
    + rewrite !skeleton_Element, !flat_map_app.
      change (flat_map skeletonChild (?x :: ?l)) with (skeletonChild x ++ flat_map skeletonChild l).
      unfold skeletonChild at 2 5. now rewrite Hm, Hm', Ht, Ht', Hs.
    + rewrite !countMarks_Element, !countMarksIn_app, !countMarksIn_cons, Hm, Hm'. lia.
    + simpl settled. rewrite !existsb_app, !forallb_app. simpl.
      rewrite Hm, Hm'. simpl.
      rewrite (mergedList_shape (pre ++ k' :: post) (pre ++ k :: post)).
      * rewrite !andb_true_iff. intros (H1 & H2 & H3 & H4). auto.
      * rewrite !map_app. simpl. do 2 f_equal.
        destruct k, k'; try discriminate; reflexivity.
Qed.

Lemma replaceFirstMark_None_countMarks (n : Node) :
  replaceFirstMark n = None -> countMarks n = 0.
Proof.
  node_induction n; [reflexivity|].
  rewrite replaceFirstMark_Element.
  destruct (replaceFirstMarkIn kids) as [[kids' [|]]|] eqn:Hin; try discriminate.
  intros _. apply replaceFirstMarkIn_None in Hin. rewrite countMarks_Element.
  induction IHkids as [|k kids Hk _ IH]; [reflexivity|].
  inversion Hin as [|? ? [Hm Hr] Hrest]; subst.
  rewrite countMarksIn_cons, Hm, (Hk Hr), (IH Hrest). reflexivity.
Qed.

Lemma countMarks_zero_replaceFirstMark (n : Node) :
  countMarks n = 0 -> replaceFirstMark n = None.
Proof.
  intros H0. destruct (replaceFirstMark n) as [n'|] eqn:H; [|reflexivity].
  apply replaceFirstMark_invariants in H as (_ & _ & Hlt & _). lia.
Qed.

Lemma clearStep_invariants (cur : Node) :
  flatten (clearStep cur) = flatten cur
  /\ skeleton (clearStep cur) = skeleton cur
  /\ countMarks (clearStep cur) <= Nat.pred (countMarks cur)
  /\ (settled cur = true -> settled (clearStep cur) = true).
Proof.
  unfold clearStep. destruct (replaceFirstMark cur) as [c'|] eqn:H.
  - apply replaceFirstMark_invariants in H as (Hf & Hs & Hc & Hset).
    repeat split; auto. lia.
  - apply replaceFirstMark_None_countMarks in H. rewrite H. auto.
Qed.

(** The number of highlight marks is the length of the list that
    [querySelectorAll] returns. *)
Lemma length_querySelectorAllMarks (n : Node) :
  List.length (querySelectorAllMarks n) = countMarks n.
Proof.
  unfold querySelectorAllMarks. node_induction n; [reflexivity|].
  rewrite countMarks_Element. simpl descendants.
  induction IHkids as [|k kids Hk _ IH]; [reflexivity|].
  simpl flat_map. rewrite countMarksIn_cons.
  change (k :: descendants k ++ flat_map (fun k0 => k0 :: descendants k0) kids)
    with ((k :: descendants k) ++ flat_map (fun k0 => k0 :: descendants k0) kids).
  rewrite List.filter_app, List.length_app, IH. simpl List.filter.
  destruct (isHighlightMark k); simpl; rewrite Hk; lia.
Qed.

(** After as many steps as there were marks, none is left. *)
Lemma iter_clearStep_invariants {A} (l : list A) :
  forall cur,
    countMarks cur <= List.length l ->
    let final := fold_left (fun c _ => clearStep c) l cur in
    flatten final = flatten cur
    /\ skeleton final = skeleton cur
    /\ countMarks final = 0
    /\ (settled cur = true -> settled final = true).
Proof.
  induction l as [|x l IH]; intros cur Hlen; simpl in *.
  - repeat split; auto. lia.
  - destruct (clearStep_invariants cur) as (Hf & Hs & Hc & Hset).
    destruct (IH (clearStep cur) ltac:(lia)) as (Hf' & Hs' & Hc' & Hset').
    repeat split; try congruence. auto.
Qed.

Lemma clearHighlights_invariants (container : Node) :
  flatten (clearHighlights container) = flatten container
  /\ skeleton (clearHighlights container) = skeleton container
  /\ countMarks (clearHighlights container) = 0
  /\ (settled container = true -> settled (clearHighlights container) = true).
Proof.
  unfold clearHighlights. apply iter_clearStep_invariants.
  now rewrite length_querySelectorAllMarks.
Qed.

(** A settled tree without marks is its own flattening. *)
Lemma flatten_settled (n : Node) :
  settled n = true -> countMarks n = 0 -> flatten n = n.
Proof.
  node_induction n; [reflexivity|].
  simpl settled. rewrite countMarks_Element, flatten_Element.
  rewrite andb_true_iff. intros [Hhere Hall] Hcount.
  assert (Hkids : Forall (fun k => isHighlightMark k = false /\ countMarks k = 0) kids).
  { clear -Hcount. induction kids as [|k kids IH]; [constructor|].
    rewrite countMarksIn_cons in Hcount. constructor; [|apply IH; lia].
    destruct (isHighlightMark k); [lia|]. split; [reflexivity | lia]. }
  assert (Hmap : map flattenChild kids = kids).
  { clear Hhere Hcount. rewrite forallb_forall in Hall.
    induction IHkids as [|k kids Hk _ IH]; [reflexivity|].
    inversion Hkids as [|? ? [Hm Hc] Hrest]; subst.
    simpl. rewrite (flattenChild_other k Hm), IH; auto.
    - rewrite Hk; auto. specialize (Hall k ltac:(now left)).
      rewrite Hm in Hall. exact Hall.
    - intros x Hx. apply Hall. now right. }
  rewrite Hmap. f_equal. apply mergedList_fixed.
  apply orb_true_iff in Hhere as [Hex | Hm]; [|exact Hm].
  apply existsb_exists in Hex as (k & Hk & Hmark).
  rewrite List.Forall_forall in Hkids. destruct (Hkids k Hk) as [Hm _]. congruence.
Qed.

(** ** The shape of a highlighted container *)

Lemma flattenChild_pushMark s : flattenChild (pushMark s) = Text s.
Proof.
  rewrite flattenChild_mark by reflexivity. now rewrite textContent_pushMark.
Qed.

(** The loop emits text nodes and highlight marks only. *)
Lemma highlightLoop_flattenChild fuel original lower q :
  forall pos r,
    highlightLoop fuel original lower q pos = Some r ->
    map flattenChild r = map (fun x => Text (textContent x)) r
    /\ Forall (fun x => settled x = true) r.
Proof.
  induction fuel as [|fuel IH]; intros pos r; [discriminate|].
  rewrite highlightLoop_S. destruct (JS.indexOf lower q pos) as [idx|].
  - destruct (highlightLoop fuel original lower q (idx + String.length q))
      as [rest|] eqn:Hrest; [|discriminate].
    simpl. intros [= <-]. destruct (IH _ _ Hrest) as [Hmap Hall].
    rewrite !map_app, !map_cons, Hmap, flattenChild_pushMark, textContent_pushMark.
    split.
    + f_equal. destruct (pos <? idx); reflexivity.
    + apply Forall_app. split; [destruct (pos <? idx); repeat constructor|].
      constructor; [|exact Hall].
      unfold pushMark. destruct (String.eqb _ "") eqn:E; simpl; [reflexivity|].
      now rewrite E.
  - intros [= <-]. split; [reflexivity | repeat constructor].
Qed.

(** On an accepted text node the loop emits at least one mark. *)
Lemma highlightLoop_has_mark fuel original q r :
  acceptNode q original = true ->
  highlightLoop fuel original (normalizeText original) q 0 = Some r ->
  existsb isHighlightMark r = true.
Proof.
  unfold acceptNode, JS.includes. destruct fuel as [|fuel]; [discriminate|].
  rewrite highlightLoop_S.
  destruct (JS.indexOf (normalizeText original) q 0) as [idx|]; [|discriminate].
  intros _.
  destruct (highlightLoop fuel original _ q (idx + String.length q)) as [rest|];
    [|discriminate].
  simpl. intros [= <-]. rewrite existsb_app. simpl. apply orb_true_r.
Qed.

Lemma countMarksIn_zero kids :
  countMarksIn kids = 0 ->
  Forall (fun k => isHighlightMark k = false /\ countMarks k = 0) kids.
Proof.
  induction kids as [|k kids IH]; [constructor|].
  rewrite countMarksIn_cons. intros H. constructor; [|apply IH; lia].
  destruct (isHighlightMark k); [lia|]. split; [reflexivity | lia].
Qed.

Lemma highlightChildren_flatten_with fuel q kids :
  Forall (fun k => forall r, highlightNode fuel q k = Some r ->
                   forall acc, fold_right mergeText acc (map flattenChild r) = mergeText k acc)
         kids ->
  forall kids',
    highlightChildren fuel q kids = Some kids' ->
    fold_right mergeText [] (map flattenChild kids') = fold_right mergeText [] kids.
Proof.
  induction 1 as [|k kids Hk _ IH]; intros kids'.
  - intros [= <-]. reflexivity.
  - rewrite highlightChildren_cons.
    destruct (highlightNode fuel q k) as [r|] eqn:Hr; [|discriminate].
    destruct (highlightChildren fuel q kids) as [rs|] eqn:Hrs; [|discriminate].
    simpl. intros [= <-].
    now rewrite map_app, fold_right_app, (IH rs eq_refl), (Hk r eq_refl).
Qed.

(** Flattening what stands in place of a normalised, mark-free node gives
    the node back, merged into whatever follows it. *)
Lemma highlightNode_flatten fuel q (n : Node) :
  isNormalized n = true -> countMarks n = 0 -> isHighlightMark n = false ->
  forall r,
    highlightNode fuel q n = Some r ->
    forall acc, fold_right mergeText acc (map flattenChild r) = mergeText n acc.
Proof.
  node_induction n; intros Hnorm Hcount Hmark r.
  - rewrite highlightNode_Text. destruct (acceptNode q d).
    + intros Hloop acc.
      destruct (highlightLoop_flattenChild _ _ _ _ _ _ Hloop) as [-> _].
      rewrite fold_mergeText_texts.
      apply highlightLoop_text in Hloop; [|lia]. now rewrite Hloop.
    + intros [= <-] acc. reflexivity.
  - rewrite highlightNode_Element.
    destruct (highlightChildren fuel q kids) as [kids'|] eqn:Hk; [|discriminate].
    simpl. intros [= <-] acc.
    change (mergeText (flattenChild (Element t c a kids')) acc =
            mergeText (Element t c a kids) acc).
    rewrite (flattenChild_other (Element t c a kids') Hmark), flatten_Element.
    simpl isNormalized in Hnorm. apply andb_true_iff in Hnorm as [Hmerged Hall].
    rewrite countMarks_Element in Hcount. apply countMarksIn_zero in Hcount.
    rewrite forallb_forall in Hall. rewrite List.Forall_forall in IHkids, Hcount.
    rewrite (highlightChildren_flatten_with fuel q kids); eauto.
    + now rewrite (mergedList_fixed kids Hmerged).
    + apply List.Forall_forall. intros k Hin r Hr.
      destruct (Hcount k Hin). apply IHkids; auto.
Qed.

Lemma highlightChildren_flatten fuel q kids kids' :
  mergedList kids = true -> forallb isNormalized kids = true ->
  countMarksIn kids = 0 ->
  highlightChildren fuel q kids = Some kids' ->
  fold_right mergeText [] (map flattenChild kids') = kids.
Proof.
  intros Hmerged Hall Hcount Hk.
  transitivity (fold_right mergeText [] kids); [|now apply mergedList_fixed].
  apply countMarksIn_zero in Hcount. rewrite forallb_forall in Hall.
  rewrite List.Forall_forall in Hcount.
  eapply highlightChildren_flatten_with; eauto.
  apply List.Forall_forall. intros k Hin r Hr.
  destruct (Hcount k Hin). eapply highlightNode_flatten; eauto.
Qed.

(** What stands in place of a node either holds a mark or has the node's
    text shape. *)
Lemma highlightNode_shape fuel q (n : Node) r :
  highlightNode fuel q n = Some r ->
  existsb isHighlightMark r = true \/ map textShape r = [textShape n].
Proof.
  destruct n as [d | t c a kids].
  - rewrite highlightNode_Text. destruct (acceptNode q d) eqn:Hacc.
    + intros H. left. eapply highlightLoop_has_mark; eauto.
    + intros [= <-]. now right.
  - rewrite highlightNode_Element.
    destruct (highlightChildren fuel q kids); [|discriminate].
    simpl. intros [= <-]. now right.
Qed.

Lemma highlightChildren_shape fuel q kids kids' :
  highlightChildren fuel q kids = Some kids' ->
  existsb isHighlightMark kids' = true \/ map textShape kids' = map textShape kids.
Proof.
  revert kids'; induction kids as [|k kids IH]; intros kids'.
  - intros [= <-]. now right.
  - rewrite highlightChildren_cons.
    destruct (highlightNode fuel q k) as [r|] eqn:Hr; [|discriminate].
    destruct (highlightChildren fuel q kids) as [rs|] eqn:Hrs; [|discriminate].
    simpl. intros [= <-]. rewrite existsb_app, map_app, orb_true_iff.
    destruct (highlightNode_shape _ _ _ _ Hr) as [H1 | H1]; [auto|].
    destruct (IH _ eq_refl) as [H2 | H2]; [auto|].
    right. now rewrite H1, H2.
Qed.

Lemma highlightNode_settled fuel q (n : Node) :
  isNormalized n = true ->
  forall r, highlightNode fuel q n = Some r -> Forall (fun x => settled x = true) r.
Proof.
  node_induction n; intros Hnorm r.
  - rewrite highlightNode_Text. destruct (acceptNode q d).
    + intros H. now apply highlightLoop_flattenChild in H.
    + intros [= <-]. repeat constructor.
  - rewrite highlightNode_Element.
    destruct (highlightChildren fuel q kids) as [kids'|] eqn:Hk; [|discriminate].
    simpl. intros [= <-]. constructor; [|constructor].
    simpl isNormalized in Hnorm. apply andb_true_iff in Hnorm as [Hmerged Hall].
    simpl settled. apply andb_true_iff. split.
    + destruct (highlightChildren_shape _ _ _ _ Hk) as [-> | Hshape]; [reflexivity|].
      rewrite (mergedList_shape _ _ Hshape), Hmerged. apply orb_true_r.
    + rewrite forallb_forall in Hall. clear Hmerged. revert kids' Hk.
      induction IHkids as [|k kids Hk0 _ IH]; intros kids'.
      * intros [= <-]. reflexivity.
      * rewrite highlightChildren_cons.
        destruct (highlightNode fuel q k) as [r|] eqn:Hr; [|discriminate].
        destruct (highlightChildren fuel q kids) as [rs|] eqn:Hrs; [|discriminate].
        simpl. intros [= <-]. rewrite forallb_app, andb_true_iff. split.
        -- apply forallb_forall. intros x Hx.
           specialize (Hk0 ltac:(apply Hall; now left) r eq_refl).
           rewrite List.Forall_forall in Hk0. rewrite (Hk0 x Hx). apply orb_true_r.
        -- apply IH; auto. intros x Hx. apply Hall. now right.
Qed.

(** *** Highlighting keeps the flattened tree of any container *)

Lemma highlightChildren_flattenChild_with fuel q kids :
  Forall (fun k => forall r, highlightNode fuel q k = Some r ->
                   forall acc, fold_right mergeText acc (map flattenChild r)
                               = mergeText (flattenChild k) acc)
         kids ->
  forall kids',
    highlightChildren fuel q kids = Some kids' ->
    fold_right mergeText [] (map flattenChild kids')
    = fold_right mergeText [] (map flattenChild kids).
Proof.
  induction 1 as [|k kids Hk _ IH]; intros kids'.
  - intros [= <-]. reflexivity.
  - rewrite highlightChildren_cons.
    destruct (highlightNode fuel q k) as [r|] eqn:Hr; [|discriminate].
    destruct (highlightChildren fuel q kids) as [rs|] eqn:Hrs; [|discriminate].
    simpl. intros [= <-].
    now rewrite map_app, fold_right_app, (IH rs eq_refl), (Hk r eq_refl).
Qed.

Lemma highlightNode_flattenChild fuel q (n : Node) :
  forall r,
    highlightNode fuel q n = Some r ->
    forall acc, fold_right mergeText acc (map flattenChild r)
                = mergeText (flattenChild n) acc.
Proof.
  node_induction n; intros r.
  - rewrite highlightNode_Text, flattenChild_Text. destruct (acceptNode q d).
    + intros Hloop acc.
      destruct (highlightLoop_flattenChild _ _ _ _ _ _ Hloop) as [-> _].
      rewrite fold_mergeText_texts.
      apply highlightLoop_text in Hloop; [|lia]. now rewrite Hloop.
    + intros [= <-] acc. reflexivity.
  - rewrite highlightNode_Element.
    destruct (highlightChildren fuel q kids) as [kids'|] eqn:Hk; [|discriminate].
    simpl. intros [= <-] acc.
    change (mergeText (flattenChild (Element t c a kids')) acc =
            mergeText (flattenChild (Element t c a kids)) acc).
    f_equal. unfold flattenChild.
    change (isHighlightMark (Element t c a kids'))
      with (isHighlightMark (Element t c a kids)).
    destruct (isHighlightMark (Element t c a kids)).
    + rewrite !textContent_Element. f_equal. eapply highlightChildren_text; eauto.
    + rewrite !flatten_Element. f_equal.
      eapply highlightChildren_flattenChild_with; eauto.
Qed.

Lemma flatten_highlight fuel container query container' :
  highlightMatchesInElement fuel container query = Some container' ->
  flatten container' = flatten container.
Proof.
  unfold highlightMatchesInElement. destruct (String.eqb query "").
  - now intros [= <-].
  - destruct container as [d | t c a kids]; [now intros [= <-]|].
    destruct (highlightChildren fuel (normalizeText query) kids) as [kids'|] eqn:Hk;
      [|discriminate].
    simpl. intros [= <-]. rewrite !flatten_Element. f_equal.
    eapply highlightChildren_flattenChild_with; [|exact Hk].
    apply List.Forall_forall. intros k _. apply highlightNode_flattenChild.
Qed.

(** ** Highlight, then clear *)

(** On a container that is normalised and holds no highlight mark,
    clearing the highlighted container gives the container back, node for
    node. *)
Lemma clearHighlights_highlight fuel container query container' :
  isNormalized container = true -> countMarks container = 0 ->
  highlightMatchesInElement fuel container query = Some container' ->
  clearHighlights container' = container.
Proof.
  intros Hnorm Hcount. unfold highlightMatchesInElement.
  assert (Hid : clearHighlights container = container).
  { apply clearHighlights_no_marks. apply List.length_zero_iff_nil.
    now rewrite length_querySelectorAllMarks. }
  destruct (String.eqb query ""); [now intros [= <-]|].
  destruct container as [d | t c a kids]; [now intros [= <-]|].
  destruct (highlightChildren fuel (normalizeText query) kids) as [kids'|] eqn:Hk;
    [|discriminate].
  simpl. intros [= <-].
  pose proof (highlightNode_settled fuel (normalizeText query)
                (Element t c a kids) Hnorm) as Hset.
  rewrite highlightNode_Element, Hk in Hset. simpl in Hset.
  specialize (Hset _ eq_refl). inversion Hset as [|? ? Hset' _]; subst. clear Hset.
  destruct (clearHighlights_invariants (Element t c a kids')) as (Hf & _ & Hc & Hs).
  rewrite <- (flatten_settled _ (Hs Hset') Hc), Hf, flatten_Element.
  f_equal. simpl isNormalized in Hnorm. apply andb_true_iff in Hnorm as [Hm Hall].
  eapply highlightChildren_flatten; eauto.
Qed.

(** ** Cycles of highlighting and clearing *)

Lemma cycles_cons fuel query rest container :
  cycles fuel (query :: rest) container =
  container' ← highlightThenClear fuel query container; cycles fuel rest container'.
Proof. reflexivity. Qed.

Lemma highlightThenClear_text fuel query container container' :
  highlightThenClear fuel query container = Some container' ->
  textContent container' = textContent container.
Proof.
  unfold highlightThenClear.
  destruct (highlightMatchesInElement fuel container query) as [h|] eqn:Hh;
    [|discriminate].
  simpl. intros [= <-]. rewrite textContent_clearHighlights.
  eapply textContent_highlight; eauto.
Qed.

Lemma highlightThenClear_restores fuel query container container' :
  isNormalized container = true -> countMarks container = 0 ->
  highlightThenClear fuel query container = Some container' ->
  container' = container.
Proof.
  intros Hn Hc. unfold highlightThenClear.
  destruct (highlightMatchesInElement fuel container query) as [h|] eqn:Hh;
    [|discriminate].
  simpl. intros [= <-]. eapply clearHighlights_highlight; eauto.
Qed.

Lemma cycles_text fuel queries :
  forall container container',
    cycles fuel queries container = Some container' ->
    textContent container' = textContent container.
Proof.
  induction queries as [|query rest IH]; intros container container'.
  - now intros [= <-].
  - rewrite cycles_cons.
    destruct (highlightThenClear fuel query container) as [c1|] eqn:H1; [|discriminate].
    simpl. intros H. rewrite (IH _ _ H). eapply highlightThenClear_text; eauto.
Qed.

Lemma cycles_restores fuel queries :
  forall container container',
    isNormalized container = true -> countMarks container = 0 ->
    cycles fuel queries container = Some container' ->
    container' = container.
Proof.
  induction queries as [|query rest IH]; intros container container' Hn Hc.
  - now intros [= <-].
  - rewrite cycles_cons.
    destruct (highlightThenClear fuel query container) as [c1|] eqn:H1; [|discriminate].
    simpl. intros H.
    apply (highlightThenClear_restores _ _ _ _ Hn Hc) in H1. subst c1. eauto.
Qed.

Lemma cycles_terminate fuel queries :
  Forall (fun query => normalizeText query <> "") queries ->
  forall container,
    String.length (textContent container) < fuel ->
    is_Some (cycles fuel queries container).
Proof.
  induction 1 as [|query rest Hq _ IH]; intros container Hfuel; [simpl; eauto|].
  rewrite cycles_cons.
  destruct (highlight_terminates fuel container query Hq Hfuel) as [h Hh].
  unfold highlightThenClear. rewrite Hh. simpl. apply IH.
  rewrite textContent_clearHighlights.
  now rewrite (textContent_highlight _ _ _ _ Hh).
Qed.

Lemma highlightThenClear_flatten fuel query container container' :
  highlightThenClear fuel query container = Some container' ->
  flatten container' = flatten container /\ countMarks container' = 0.
Proof.
  unfold highlightThenClear.
  destruct (highlightMatchesInElement fuel container query) as [h|] eqn:Hh;
    [|discriminate].
  simpl. intros [= <-].
  destruct (clearHighlights_invariants h) as (Hf & _ & Hc & _).
  split; [|exact Hc]. rewrite Hf. eapply flatten_highlight; eauto.
Qed.

Lemma cycles_flatten fuel queries :
  forall container container',
    cycles fuel queries container = Some container' ->
    flatten container' = flatten container
    /\ (countMarks container = 0 -> countMarks container' = 0).
Proof.
  induction queries as [|query rest IH]; intros container container'.
  - now intros [= <-].
  - rewrite cycles_cons.
    destruct (highlightThenClear fuel query container) as [c1|] eqn:H1; [|discriminate].
    simpl. intros H. apply highlightThenClear_flatten in H1 as [Hf Hc].
    destruct (IH _ _ H) as [Hf' Hc']. split; [congruence | auto].
Qed.

(** ** What clearing amounts to *)

Lemma replaceMarksOnly_Element t c a kids :
  replaceMarksOnly (Element t c a kids) =
  Element t c a (map (fun k => if isHighlightMark k then Text (textContent k)
                               else replaceMarksOnly k) kids).
Proof. reflexivity. Qed.

(** Replacing the marks and then normalising is [flatten]. *)
Lemma normalize_replaceMarksOnly (n : Node) :
  normalize (replaceMarksOnly n) = flatten n.
Proof.
  node_induction n; [reflexivity|].
  rewrite replaceMarksOnly_Element, normalize_Element, flatten_Element, map_map.
  do 2 f_equal. apply List.map_ext_in. intros k Hk.
  rewrite List.Forall_forall in IHkids. unfold flattenChild.
  destruct (isHighlightMark k); [reflexivity | now apply IHkids].
Qed.

Lemma replaceMarksOnly_no_marks (n : Node) :
  countMarks n = 0 -> replaceMarksOnly n = n.
Proof.
  node_induction n; [reflexivity|].
  rewrite countMarks_Element, replaceMarksOnly_Element. intros H.
  apply countMarksIn_zero in H. f_equal.
  induction IHkids as [|k kids Hk _ IH]; [reflexivity|].
  inversion H as [|? ? [Hm Hc] Hrest]; subst.
  simpl. now rewrite Hm, (Hk Hc), (IH Hrest).
Qed.

Lemma countMarks_zero_no_marks (n : Node) :
  countMarks n = 0 <-> querySelectorAllMarks n = [].
Proof.
  rewrite <- length_querySelectorAllMarks. split.
  - apply List.length_zero_iff_nil.
  - now intros ->.
Qed.

(** Without highlight marks, flattening is normalising. *)
Lemma flatten_no_marks (n : Node) : countMarks n = 0 -> flatten n = normalize n.
Proof.
  intros H. rewrite <- normalize_replaceMarksOnly.
  now rewrite (replaceMarksOnly_no_marks n H).
Qed.

Lemma cycles_normalize fuel queries container container' :
  countMarks container = 0 ->
  cycles fuel queries container = Some container' ->
  normalize container' = normalize container.
Proof.
  intros Hc H. apply cycles_flatten in H as [Hf Hc'].
  rewrite <- (flatten_no_marks container Hc), <- (flatten_no_marks container' (Hc' Hc)).
  exact Hf.
Qed.

(** ** Examples *)

Example highlight_paragraph :
  highlightMatchesInElement 64 Samples.paragraph "API"
  = Some (Element "p" [] []
            [Text "The "; pushMark "API"; Text " docs, the "; pushMark "api";
             Text " key";
             Element "b" [] [] [pushMark "Api"; Text ""];
             Text " and more"]).
Proof. reflexivity. Qed.

Example clear_highlighted_paragraph :
  clearHighlights <$> highlightMatchesInElement 64 Samples.paragraph "API"
  = Some Samples.paragraph.
Proof. reflexivity. Qed.

(** A query of one space on [<p>a</p>]: the loop does not stop. *)
Example blank_query_never_returns (fuel : nat) :
  highlightMatchesInElement fuel Samples.letter " " = None.
Proof.
  apply highlight_blank_query_diverges; [discriminate | reflexivity|].
  exists "p", [], [], [Text "a"]. split; reflexivity.
Qed.

(** ** The claims about highlighting and clearing *)

(** C1. Highlighting a container and clearing it again gives back its
    flattened text, whatever the queries and however many cycles are run.
    When the container holds no highlight mark the cycles give back the
    same tree up to the merging of adjacent text nodes, and when it is also
    normalised they give back the container itself, every fragment merged
    into the text node it was cut from.  The cycles return as soon as no
    query is blank and the fuel exceeds the length of the text.  Clearing
    alone keeps the text, and changes nothing at all in a container without
    highlight marks. *)
Theorem highlight_clear_round_trip
        (fuel : nat) (queries : list string) (container : Node) :
  (forall container',
      cycles fuel queries container = Some container' ->
      textContent container' = textContent container
      /\ (querySelectorAllMarks container = [] ->
          normalize container' = normalize container)
      /\ (isNormalized container = true ->
          querySelectorAllMarks container = [] ->
          container' = container))
  /\ (Forall (fun query => normalizeText query <> "") queries ->
      String.length (textContent container) < fuel ->
      is_Some (cycles fuel queries container))
  /\ textContent (clearHighlights container) = textContent container
  /\ (querySelectorAllMarks container = [] -> clearHighlights container = container).
Proof.
  repeat split.
  - eapply cycles_text; eauto.
  - intros Hm. apply countMarks_zero_no_marks in Hm. eapply cycles_normalize; eauto.
  - intros Hn Hm. apply countMarks_zero_no_marks in Hm. eapply cycles_restores; eauto.
  - intros Hq Hfuel. now apply cycles_terminate.
  - apply textContent_clearHighlights.
  - apply clearHighlights_no_marks.
Qed.

Lemma highlight_clear_round_trip_witness :
  cycles 64 ["api"; "The "; "DOCS"] Samples.paragraph = Some Samples.paragraph.
Proof.
  destruct (highlight_clear_round_trip 64 ["api"; "The "; "DOCS"] Samples.paragraph)
    as (Hback & Hreturns & _ & _).
  destruct Hreturns as [container' Hcycles].
  - repeat constructor; vm_compute; discriminate.
  - vm_compute. lia.
  - rewrite Hcycles. f_equal.
    now apply (Hback container' Hcycles).
Defined.

(** C2 (defect). The cursor positions are found in the trimmed lower-case
    copy of the text but cut out of the original text.  In a text node that
    starts with white space every mark is therefore shifted to the left: in
    " API docs" the query "api" marks " AP", which is not the query in any
    letter case. *)
Theorem highlight_shifted_by_leading_white_space :
  highlightMatchesInElement 16 Samples.leadingSpace "api"
  = Some (Element "p" [] [] [pushMark " AP"; Text "I docs"])
  /\ JS.toLowerCase " AP" <> "api".
Proof. split; [reflexivity | discriminate]. Qed.



(** ** The cost calculator *)

Module CalculatorFacts.
Import Calculator.






Lemma queryNumberInput_finite document selector fallback :
  Number.isFinite fallback = true ->
  Number.isFinite (queryNumberInput document selector fallback) = true.
Proof.
  intros Hf. unfold queryNumberInput.
  destruct (querySelector document selector) as [el|]; [|exact Hf].
  simpl. destruct (Number.isFinite (valueNumber el)) eqn:Hv; auto.
Qed.

(** The fallback is used exactly when the element is missing or its value
    is not a finite number; a finite value is returned as it is. *)
Lemma queryNumberInput_cases document selector fallback :
  queryNumberInput document selector fallback =
  match querySelector document selector with
  | Some el => if Number.isFinite (valueNumber el) then valueNumber el else fallback
  | None => fallback
  end.
Proof. reflexivity. Qed.

End CalculatorFacts.

Import Calculator.

Example scenario_without_auth :
  build_total (build (calculateCosts (Samples.scenario false))) = Num 621173
  /\ saas_total (saas (calculateCosts (Samples.scenario false))) = Num 220500
  /\ fus_total (fusionauth (calculateCosts (Samples.scenario false))) = Num 44078
  /\ savingsVsBuild (calculateCosts (Samples.scenario false)) = Num 577095.
Proof. repeat split. Qed.





Import Calculator.



(** C9, as stated, fails: a value outside any sensible range is finite, so it
    is passed on and no default is used. *)
Lemma out_of_range_value_is_kept :
  engineers (readState Samples.negativeEngineers) = Num (-5)
  /\ ~ Number.equiv (engineers (readState Samples.negativeEngineers)) (Num 3)
  /\ salary (readState Samples.negativeEngineers) = Num 150000.
Proof. repeat split. discriminate. Qed.

(** C9, amended. Every numeric field of the state read from the page is
    finite.  A field takes the default (3 engineers, 150000 salary, 10000
    users, 3 years) exactly when its input is missing or its value is not a
    finite number; any finite value, in range or not, is taken as it is.
    The flag is the checkbox state, or false when the checkbox is missing. *)
Theorem readState_defaults (document : Document) :
  finiteState (readState document)
  /\ (forall selector fallback,
         (querySelector document selector = None
          \/ exists el, querySelector document selector = Some el
                        /\ Number.isFinite (valueNumber el) = false) ->
         queryNumberInput document selector fallback = fallback)
  /\ (forall selector fallback el,
         querySelector document selector = Some el ->
         Number.isFinite (valueNumber el) = true ->
         queryNumberInput document selector fallback = valueNumber el)
  /\ engineers (readState document) = queryNumberInput document "engineers" (Num 3)
  /\ salary (readState document) = queryNumberInput document "salary" (Num 150000)
  /\ users (readState document) = queryNumberInput document "volume" (Num 10000)
  /\ timeline (readState document) = queryNumberInput document "timeline" (Num 3)
  /\ hasExistingAuth (readState document) =
     match querySelector document "auth" with
     | Some el => checked el
     | None => false
     end
  /\ (document = [] ->
      readState document =
      {| engineers := Num 3; salary := Num 150000; users := Num 10000;
         timeline := Num 3; hasExistingAuth := false |}).
Proof.
  split; [|split; [|split]].
  - repeat split; apply CalculatorFacts.queryNumberInput_finite; reflexivity.
  - intros selector fallback [Hnone | (el & Hel & Hv)];
      rewrite CalculatorFacts.queryNumberInput_cases.
    + now rewrite Hnone.
    + now rewrite Hel, Hv.
  - intros selector fallback el Hel Hv.
    rewrite CalculatorFacts.queryNumberInput_cases. now rewrite Hel, Hv.
  - repeat split. now intros ->.
Qed.

Lemma readState_defaults_witness :
  readState [] =
  {| engineers := Num 3; salary := Num 150000; users := Num 10000;
     timeline := Num 3; hasExistingAuth := false |}
  /\ salary (readState Samples.negativeEngineers) = Num 150000.
Proof.
  destruct (readState_defaults []) as (_ & _ & _ & _ & _ & _ & _ & _ & Hempty).
  destruct (readState_defaults Samples.negativeEngineers)
    as (_ & Hfallback & _ & _ & Hsalary & _).
  split; [now apply Hempty|].
  rewrite Hsalary. apply Hfallback. right.
  eexists. split; reflexivity.
Defined.

(** ** The search controller *)

Module FaqSearchFacts.
Import FaqSearch.

(** *** Clicks and attribute updates on one item *)

Lemma itemText_click who els : itemText (click who els) = itemText els.
Proof. unfold click. destruct (clickTagged els); reflexivity. Qed.

Lemma itemText_closeItem i els : itemText (closeItem i els).1 = itemText els.
Proof.
  unfold closeItem. destruct (isFaqItemOpen els && questionWrapper els); simpl;
    [|reflexivity].
  unfold removeOpenedAttr, itemText. simpl.
  unfold click. destruct (clickTagged els); reflexivity.
Qed.

Lemma itemText_clearItem els : itemText (clearItem els) = itemText els.
Proof.
  unfold itemText, clearItem. simpl.
  destruct (questionTitle els), (answer els); simpl;
    now rewrite ?textContent_clearHighlights.
Qed.

Lemma itemFlags_clearItem els : itemFlags (clearItem els) = itemFlags els.
Proof. reflexivity. Qed.

Lemma openedAttr_click who els :
  openedAttr (click who els) =
  if clickTagged els then Some "true" else openedAttr els.
Proof. unfold click. destruct (clickTagged els); reflexivity. Qed.

(** A click never turns the value ['true'] of the attribute into another. *)
Lemma openedAttrIsTrue_click who els :
  openedAttrIsTrue els = true -> openedAttrIsTrue (click who els) = true.
Proof.
  unfold openedAttrIsTrue. rewrite openedAttr_click.
  destruct (clickTagged els); auto.
Qed.


Lemma setOpenedAttr_click_by_search els :
  openedAttrIsTrue els = false ->
  let els' := setOpenedAttr BySearch (click BySearch els) in
  openedAttr els' = Some "true"
  /\ markedBy els' = Some BySearch
  /\ questionWrapper els' = questionWrapper els
  /\ isOpen els' = negb (isOpen els)
  /\ itemText els' = itemText els.
Proof.
  intros Hattr. unfold click. destruct (clickTagged els); simpl.
  - unfold setOpenedAttr at 2. unfold openedAttrIsTrue at 1. simpl.
    unfold setOpenedAttr, openedAttrIsTrue in *. simpl. rewrite Hattr. auto.
  - unfold setOpenedAttr. unfold openedAttrIsTrue in *. simpl. rewrite Hattr. auto.
Qed.

(** *** The closing loops *)

Lemma closeSearchOpened_cons keep i els rest opened :
  closeSearchOpened keep i (els :: rest) opened =
  if bool_decide (i ∈ opened) && negb (keep els) then
    let '(els', eff) := closeItem i els in
    let '(rest', opened', effs) :=
      closeSearchOpened keep (S i) rest (opened ∖ {[i]}) in
    (els' :: rest', opened', eff ++ effs)
  else
    let '(rest', opened', effs) := closeSearchOpened keep (S i) rest opened in
    (els :: rest', opened', effs).
Proof. reflexivity. Qed.

(** What a closing loop does to the items from position [i] on, to the
    set and to the log. *)
Lemma closeSearchOpened_spec keep its :
  forall i opened its' opened' effs,
    closeSearchOpened keep i its opened = (its', opened', effs) ->
    (forall j els, its !! j = Some els ->
        its' !! j = Some (if bool_decide (i + j ∈ opened) && negb (keep els)
                          then (closeItem (i + j) els).1 else els))
    /\ List.length its' = List.length its
    /\ (forall k, k ∈ opened' <->
                  k ∈ opened
                  /\ ~ (exists els, i <= k /\ its !! (k - i) = Some els /\ keep els = false))
    /\ (forall e, e ∈ effs ->
          exists k els, e = Click BySearch k /\ k ∈ opened /\ i <= k
                        /\ its !! (k - i) = Some els /\ keep els = false
                        /\ isOpen els = true).
Proof.
  induction its as [|els rest IH]; intros i opened its' opened' effs.
  - simpl. intros [= <- <- <-]. split_and!.
    + intros j els H. discriminate.
    + reflexivity.
    + intros k. split; [|tauto]. intros H. split; [exact H|].
      intros (els & _ & Hl & _). discriminate.
    + intros e He. inversion He.
  - rewrite closeSearchOpened_cons.
    destruct (bool_decide (i ∈ opened) && negb (keep els)) eqn:Hcond.
    + destruct (closeItem i els) as [els1 eff] eqn:Hclose.
      destruct (closeSearchOpened keep (S i) rest (opened ∖ {[i]}))
        as [[rest' opened1] effs1] eqn:Hrest.
      intros [= <- <- <-].
      destruct (IH _ _ _ _ _ Hrest) as (Hitems & Hlen & Hset & Heffs).
      apply andb_true_iff in Hcond as [Hin Hkeep].
      apply bool_decide_eq_true in Hin. apply negb_true_iff in Hkeep.
      split_and!.
      * intros [|j] x Hx.
        -- simpl in Hx. injection Hx as <-. rewrite Nat.add_0_r.
           rewrite bool_decide_eq_true_2 by exact Hin. rewrite Hkeep. simpl.
           now rewrite Hclose.
        -- change ((els1 :: rest') !! S j) with (rest' !! j).
           change ((els :: rest) !! S j) with (rest !! j) in Hx.
           rewrite (Hitems j x Hx). replace (i + S j) with (S i + j) by lia.
           replace (bool_decide (S i + j ∈ opened ∖ {[i]}))
             with (bool_decide (S i + j ∈ opened)); [reflexivity|].
           apply bool_decide_ext. set_solver by lia.
      * simpl. now rewrite Hlen.
      * intros k. rewrite Hset. split.
        -- intros [Hk Hnot]. split; [set_solver|].
           intros (x & Hle & Hx & Hkx). apply Hnot.
           assert (k <> i) by set_solver.
           exists x. split; [lia|]. split; [|exact Hkx].
           replace (k - i) with (S (k - S i)) in Hx by lia. exact Hx.
        -- intros [Hk Hnot].
           assert (Hne : k <> i).
           { intros ->. apply Hnot. exists els. rewrite Nat.sub_diag. auto. }
           split; [set_solver|].
           intros (x & Hle & Hx & Hkx). apply Hnot.
           exists x. split; [lia|]. split; [|exact Hkx].
           replace (k - i) with (S (k - S i)) by lia. exact Hx.
      * intros e He. apply elem_of_app in He as [He | He].
        -- unfold closeItem in Hclose.
           destruct (isFaqItemOpen els && questionWrapper els) eqn:Hopen;
             injection Hclose as <- <-; [|inversion He].
           apply list_elem_of_singleton in He as ->.
           apply andb_true_iff in Hopen as [Hopen _].
           exists i, els. rewrite Nat.sub_diag. auto 10.
        -- destruct (Heffs e He) as (k & x & -> & Hk & Hle & Hx & Hkx & Hopen).
           exists k, x. split_and!; auto; [set_solver | lia |].
           replace (k - i) with (S (k - S i)) by lia. exact Hx.
    + destruct (closeSearchOpened keep (S i) rest opened)
        as [[rest' opened1] effs1] eqn:Hrest.
      intros [= <- <- <-].
      destruct (IH _ _ _ _ _ Hrest) as (Hitems & Hlen & Hset & Heffs).
      split_and!.
      * intros [|j] x Hx.
        -- simpl in Hx. injection Hx as <-. rewrite Nat.add_0_r. now rewrite Hcond.
        -- change ((els :: rest') !! S j) with (rest' !! j).
           change ((els :: rest) !! S j) with (rest !! j) in Hx.
           rewrite (Hitems j x Hx). now replace (i + S j) with (S i + j) by lia.
      * simpl. now rewrite Hlen.
      * intros k. rewrite Hset. split.
        -- intros [Hk Hnot]. split; [exact Hk|].
           intros (x & Hle & Hx & Hkx).
           destruct (decide (k = i)) as [->|Hne].
           ++ rewrite Nat.sub_diag in Hx. injection Hx as <-.
              rewrite bool_decide_eq_true_2, Hkx in Hcond by exact Hk. discriminate.
           ++ apply Hnot. exists x. split; [lia|]. split; [|exact Hkx].
              replace (k - i) with (S (k - S i)) in Hx by lia. exact Hx.
        -- intros [Hk Hnot]. split; [exact Hk|].
           intros (x & Hle & Hx & Hkx). apply Hnot.
           exists x. split; [lia|]. split; [|exact Hkx].
           replace (k - i) with (S (k - S i)) by lia. exact Hx.
      * intros e He.
        destruct (Heffs e He) as (k & x & -> & Hk & Hle & Hx & Hkx & Hopen).
        exists k, x. split_and!; auto; [lia|].
        replace (k - i) with (S (k - S i)) by lia. exact Hx.
Qed.

Lemma closeSearchOpened_itemText keep its :
  forall i opened its' opened' effs,
    closeSearchOpened keep i its opened = (its', opened', effs) ->
    map itemText its' = map itemText its.
Proof.
  induction its as [|els rest IH]; intros i opened its' opened' effs.
  - simpl. now intros [= <- <- <-].
  - rewrite closeSearchOpened_cons.
    destruct (bool_decide (i ∈ opened) && negb (keep els)).
    + pose proof (itemText_closeItem i els) as Ht.
      destruct (closeItem i els) as [els1 eff].
      destruct (closeSearchOpened keep (S i) rest (opened ∖ {[i]}))
        as [[rest' opened1] effs1] eqn:Hrest.
      intros [= <- <- <-]. simpl in *. now rewrite Ht, (IH _ _ _ _ _ Hrest).
    + destruct (closeSearchOpened keep (S i) rest opened)
        as [[rest' opened1] effs1] eqn:Hrest.
      intros [= <- <- <-]. simpl. now rewrite (IH _ _ _ _ _ Hrest).
Qed.

End FaqSearchFacts.

Module FaqSearchScan.
Import FaqSearch FaqSearchFacts.

(** *** The highlighting loop over the items *)

Lemma highlightRegion_text fuel el q el' :
  highlightRegion fuel el q = Some el' ->
  textContent <$> el' = textContent <$> el.
Proof.
  destruct el as [e|]; simpl; [|now intros [= <-]].
  destruct (highlightMatchesInElement fuel e q) as [e'|] eqn:He; [|discriminate].
  simpl. intros [= <-]. simpl. f_equal. eapply textContent_highlight; eauto.
Qed.

Lemma highlightRegion_terminates fuel el q :
  normalizeText q <> "" -> regionLength el < fuel ->
  is_Some (highlightRegion fuel el q).
Proof.
  intros Hq Hfuel. destruct el as [e|]; simpl; [|eauto].
  destruct (highlight_terminates fuel e q Hq Hfuel) as [e' ->]. simpl. eauto.
Qed.

Lemma firstMatch_nil q i : firstMatch q i [] = None.
Proof. reflexivity. Qed.

Lemma firstMatch_cons q i els rest :
  firstMatch q i (els :: rest) =
  if itemMatchesQuery els q then Some i else firstMatch q (S i) rest.
Proof.
  unfold firstMatch. simpl. destruct (itemMatchesQuery els q) eqn:Hm.
  - rewrite decide_True by reflexivity. simpl. f_equal. lia.
  - rewrite decide_False by discriminate.
    destruct (list_find _ rest) as [[j x]|]; simpl; [f_equal; lia | reflexivity].
Qed.

Lemma highlightMatchingItems_cons fuel q i els rest first :
  highlightMatchingItems fuel q i (els :: rest) first =
  if itemMatchesQuery els q then
    title' ← highlightRegion fuel (questionTitle els) q;
    answer' ← highlightRegion fuel (answer els) q;
    '(rest', found) ← highlightMatchingItems fuel q (S i) rest
                        (match first with None => Some i | Some _ => first end);
    Some (mkFaqItem (questionWrapper els) title' answer' (openedAttr els)
                    (isOpen els) (clickTagged els) (markedBy els) :: rest', found)
  else
    '(rest', found) ← highlightMatchingItems fuel q (S i) rest first;
    Some (els :: rest', found).
Proof. reflexivity. Qed.

(** What the loop returns: the items that match have both regions
    highlighted, the others are as before; no flag of any item changes;
    [firstMatchedItem] is the first item that matches. *)
Lemma highlightMatchingItems_spec fuel q its :
  forall i first its' found,
    highlightMatchingItems fuel q i its first = Some (its', found) ->
    found = match first with Some _ => first | None => firstMatch q i its end
    /\ Forall2 (fun els els' =>
                  itemFlags els' = itemFlags els
                  /\ itemText els' = itemText els
                  /\ if itemMatchesQuery els q
                     then highlightRegion fuel (questionTitle els) q
                          = Some (questionTitle els')
                          /\ highlightRegion fuel (answer els) q = Some (answer els')
                     else els' = els)
               its its'.
Proof.
  induction its as [|els rest IH]; intros i first its' found.
  - simpl. intros [= <- <-]. split; [now destruct first | constructor].
  - rewrite highlightMatchingItems_cons, firstMatch_cons.
    destruct (itemMatchesQuery els q) eqn:Hm.
    + destruct (highlightRegion fuel (questionTitle els) q) as [t'|] eqn:Ht;
        [|discriminate].
      destruct (highlightRegion fuel (answer els) q) as [a'|] eqn:Ha;
        [|discriminate].
      simpl.
      destruct (highlightMatchingItems fuel q (S i) rest _) as [[rest' f]|] eqn:Hrest;
        [|discriminate].
      simpl. intros [= <- <-]. destruct (IH _ _ _ _ Hrest) as [Hf Hall].
      split; [destruct first; exact Hf|].
      constructor; [|exact Hall]. rewrite Hm. split_and!; auto.
      unfold itemText. simpl.
      now rewrite (highlightRegion_text _ _ _ _ Ht), (highlightRegion_text _ _ _ _ Ha).
    + destruct (highlightMatchingItems fuel q (S i) rest first) as [[rest' f]|] eqn:Hrest;
        [|discriminate].
      simpl. intros [= <- <-]. destruct (IH _ _ _ _ Hrest) as [Hf Hall].
      split; [exact Hf|]. constructor; [|exact Hall]. now rewrite Hm.
Qed.

Lemma highlightMatchingItems_terminates fuel q its :
  normalizeText q <> "" ->
  Forall (fun els => regionLength (questionTitle els) < fuel
                     /\ regionLength (answer els) < fuel) its ->
  forall i first, is_Some (highlightMatchingItems fuel q i its first).
Proof.
  intros Hq. induction 1 as [|els rest [Ht Ha] _ IH]; intros i first; [simpl; eauto|].
  rewrite highlightMatchingItems_cons. destruct (itemMatchesQuery els q).
  - destruct (highlightRegion_terminates fuel (questionTitle els) q Hq Ht) as [t' ->].
    destruct (highlightRegion_terminates fuel (answer els) q Hq Ha) as [a' ->].
    simpl. destruct (IH (S i) (match first with None => Some i | Some _ => first end))
      as [[rest' f] ->].
    simpl. eauto.
  - destruct (IH (S i) first) as [[rest' f] ->]. simpl. eauto.
Qed.



End FaqSearchScan.

Module FaqSearchSteps.
Import FaqSearch FaqSearchFacts FaqSearchScan.

(** *** openFaqItem *)



(** *** Matching does not depend on the marks *)

Lemma isMatch_text el el' q :
  textContent <$> el' = textContent <$> el -> isMatch el' q = isMatch el q.
Proof.
  destruct el, el'; simpl; try discriminate; [|reflexivity].
  now intros [= ->].
Qed.

Lemma itemMatchesQuery_text els els' q :
  itemText els' = itemText els -> itemMatchesQuery els' q = itemMatchesQuery els q.
Proof.
  unfold itemText, itemMatchesQuery. intros [= Ht Ha].
  now rewrite (isMatch_text _ _ q Ht), (isMatch_text _ _ q Ha).
Qed.

Lemma firstMatch_text q i its its' :
  map itemText its' = map itemText its -> firstMatch q i its' = firstMatch q i its.
Proof.
  revert i its'; induction its as [|els rest IH]; intros i [|els' rest'];
    try discriminate; [reflexivity|].
  rewrite !map_cons. intros Heq.
  assert (Hels : itemText els' = itemText els) by congruence.
  assert (Hrest : map itemText rest' = map itemText rest) by congruence.
  rewrite !firstMatch_cons.
  now rewrite (itemMatchesQuery_text _ _ q Hels), (IH _ _ Hrest).
Qed.

(** *** findFirstMatchAndAct *)

Lemma findFirstMatchAndAct_spec fuel query s s' :
  normalizeText query <> "" ->
  findFirstMatchAndAct fuel query s = Some s' ->
  exists its',
    Forall2 (rescanned fuel (normalizeText query)) (items s) its'
    /\ s' = match firstMatch (normalizeText query) 0 (items s) with
            | None => mkState its' (searchOpenedItems s) (log s)
            | Some i =>
                openFaqItem i (mkState its' (searchOpenedItems s)
                                       (log s ++ [ScrollIntoView i]))
            end.
Proof.
  intros Hq. unfold findFirstMatchAndAct.
  destruct (String.eqb (normalizeText query) "") eqn:E;
    [apply String.eqb_eq in E; contradiction|].
  destruct (highlightMatchingItems fuel (normalizeText query) 0
              (map clearItem (items s)) None) as [[its' found]|] eqn:Hscan;
    [|discriminate].
  simpl. intros Hs'.
  apply highlightMatchingItems_spec in Hscan as [Hfound Hall].
  rewrite (firstMatch_text _ _ (items s)) in Hfound
    by (rewrite map_map; apply map_ext; apply itemText_clearItem).
  subst found. exists its'. split.
  - apply Forall2_fmap_l in Hall. eapply Forall2_impl; [exact Hall|].
    intros els els' (Hflags & Htext & Hm). unfold rescanned.
    rewrite itemText_clearItem in Htext.
    rewrite (itemMatchesQuery_text _ _ _ (itemText_clearItem els)) in Hm.
    auto.
  - destruct (firstMatch (normalizeText query) 0 (items s)); congruence.
Qed.

Lemma findFirstMatchAndAct_terminates fuel query s :
  enoughFuel fuel s -> is_Some (findFirstMatchAndAct fuel query s).
Proof.
  intros Hfuel. unfold findFirstMatchAndAct.
  destruct (String.eqb (normalizeText query) "") eqn:E; [eauto|].
  apply String.eqb_neq in E.
  destruct (highlightMatchingItems_terminates fuel (normalizeText query)
              (map clearItem (items s))) with (i := 0) (first := @None nat)
    as [[its' found] ->].
  - now rewrite normalizeText_idempotent.
  - apply Forall_fmap. eapply Forall_impl; [exact Hfuel|].
    intros els [Ht Ha]. unfold clearItem, regionLength. simpl.
    destruct (questionTitle els), (answer els); simpl in *;
      rewrite ?textContent_clearHighlights; auto.
  - simpl. destruct found; eauto.
Qed.

End FaqSearchSteps.

Module FaqSearchInvariants.
Import FaqSearch FaqSearchFacts FaqSearchScan FaqSearchSteps.

(** *** onSearch, case by case *)

Lemma onSearch_blank fuel value s :
  JS.trim value = "" ->
  onSearch fuel value s =
  let '(its, opened, effs) :=
    closeSearchOpened (fun _ => false) 0 (map clearItem (items s))
                      (searchOpenedItems s) in
  Some (mkState its opened (log s ++ effs)).
Proof. intros Hv. unfold onSearch. now rewrite Hv. Qed.

Lemma onSearch_query fuel value s :
  JS.trim value <> "" ->
  onSearch fuel value s =
  let '(its, opened, effs) :=
    closeSearchOpened (fun els => itemMatchesQuery els (normalizeText value)) 0
                      (items s) (searchOpenedItems s) in
  findFirstMatchAndAct fuel value (mkState its opened (log s ++ effs)).
Proof.
  intros Hv. unfold onSearch.
  destruct (String.eqb (JS.trim value) "") eqn:E; [|reflexivity].
  apply String.eqb_eq in E. contradiction.
Qed.

(** *** The text of the items never changes *)

Lemma Forall2_rescanned_itemText fuel q its its' :
  Forall2 (rescanned fuel q) its its' -> map itemText its' = map itemText its.
Proof.
  induction 1 as [|els els' its its' (_ & Ht & _) _ IH]; [reflexivity|].
  simpl. now rewrite Ht, IH.
Qed.

Lemma itemText_insert (its : list FaqItem) i els els' :
  its !! i = Some els -> itemText els' = itemText els ->
  map itemText (<[i := els']> its) = map itemText its.
Proof.
  intros Hi Ht. rewrite list_fmap_insert, Ht.
  apply list_insert_id. now rewrite list_lookup_fmap, Hi.
Qed.

Lemma openFaqItem_itemText i s :
  map itemText (items (openFaqItem i s)) = map itemText (items s).
Proof.
  unfold openFaqItem. destruct (items s !! i) as [els|] eqn:Hi; [|reflexivity].
  destruct (questionWrapper els); [|reflexivity].
  destruct (openedAttrIsTrue els) eqn:Hattr; [reflexivity|]. simpl.
  apply (itemText_insert _ _ els); [exact Hi|].
  now apply setOpenedAttr_click_by_search.
Qed.

Lemma findFirstMatchAndAct_itemText fuel query s s' :
  findFirstMatchAndAct fuel query s = Some s' ->
  map itemText (items s') = map itemText (items s).
Proof.
  destruct (String.eqb (normalizeText query) "") eqn:E.
  - unfold findFirstMatchAndAct. rewrite E. now intros [= <-].
  - apply String.eqb_neq in E. intros H.
    apply findFirstMatchAndAct_spec in H as (its' & Hall & ->); [|exact E].
    apply Forall2_rescanned_itemText in Hall.
    destruct (firstMatch _ 0 (items s)); [|exact Hall].
    now rewrite openFaqItem_itemText.
Qed.

Lemma onSearch_itemText fuel value s s' :
  onSearch fuel value s = Some s' ->
  map itemText (items s') = map itemText (items s).
Proof.
  destruct (String.eqb (JS.trim value) "") eqn:E.
  - apply String.eqb_eq in E. rewrite onSearch_blank by exact E.
    destruct (closeSearchOpened _ 0 _ _) as [[its opened] effs] eqn:Hclose.
    intros [= <-]. simpl.
    rewrite (closeSearchOpened_itemText _ _ _ _ _ _ _ Hclose), map_map.
    apply map_ext, itemText_clearItem.
  - apply String.eqb_neq in E. rewrite onSearch_query by exact E.
    destruct (closeSearchOpened _ 0 _ _) as [[its opened] effs] eqn:Hclose.
    intros H. apply findFirstMatchAndAct_itemText in H. rewrite H. simpl.
    apply (closeSearchOpened_itemText _ _ _ _ _ _ _ Hclose).
Qed.

Lemma userClick_itemText i s :
  map itemText (items (userClick i s)) = map itemText (items s).
Proof.
  unfold userClick. destruct (items s !! i) as [els|] eqn:Hi; [|reflexivity].
  destruct (questionWrapper els); [|reflexivity]. simpl.
  apply (itemText_insert _ _ els); [exact Hi | apply itemText_click].
Qed.

Lemma step_itemText fuel s e s' :
  step fuel s e = Some s' -> map itemText (items s') = map itemText (items s).
Proof.
  destruct e as [i | value]; simpl.
  - intros [= <-]. apply userClick_itemText.
  - apply onSearch_itemText.
Qed.

(** *** Enough fuel stays enough, and every handler returns *)

Lemma enoughFuel_itemText fuel s s' :
  map itemText (items s') = map itemText (items s) ->
  enoughFuel fuel s -> enoughFuel fuel s'.
Proof.
  unfold enoughFuel. generalize (items s) (items s'). clear s s'.
  intros its; induction its as [|els its IH]; intros [|els' its']; try discriminate.
  - constructor.
  - rewrite !map_cons. intros Heq Hall.
    assert (Hels : itemText els' = itemText els) by congruence.
    assert (Hrest : map itemText its' = map itemText its) by congruence.
    inversion Hall as [|? ? [Ht Ha] Hits]; subst.
    constructor; [|now apply IH].
    unfold itemText in Hels. injection Hels as Ht' Ha'. unfold regionLength in *.
    destruct (questionTitle els), (questionTitle els'), (answer els), (answer els');
      simpl in *; try discriminate; repeat split;
      try injection Ht' as ->; try injection Ha' as ->; auto; lia.
Qed.

Lemma onSearch_terminates fuel value s :
  enoughFuel fuel s -> is_Some (onSearch fuel value s).
Proof.
  intros Hfuel. destruct (String.eqb (JS.trim value) "") eqn:E.
  - apply String.eqb_eq in E. rewrite onSearch_blank by exact E.
    destruct (closeSearchOpened _ 0 _ _) as [[its opened] effs]. eauto.
  - apply String.eqb_neq in E. rewrite onSearch_query by exact E.
    destruct (closeSearchOpened _ 0 _ _) as [[its opened] effs] eqn:Hclose.
    apply findFirstMatchAndAct_terminates.
    eapply enoughFuel_itemText; [|exact Hfuel]. simpl.
    apply (closeSearchOpened_itemText _ _ _ _ _ _ _ Hclose).
Qed.

Lemma run_terminates fuel es :
  forall s, enoughFuel fuel s -> is_Some (run fuel s es).
Proof.
  induction es as [|e es IH]; intros s Hfuel; [simpl; eauto|].
  simpl. assert (Hstep : is_Some (step fuel s e)).
  { destruct e; simpl; [eauto | now apply onSearch_terminates]. }
  destruct Hstep as [s' Hs']. rewrite Hs'. simpl. apply IH.
  eapply enoughFuel_itemText; [|exact Hfuel]. eapply step_itemText; eauto.
Qed.

End FaqSearchInvariants.

Module FaqSearchSet.
Import FaqSearch FaqSearchFacts FaqSearchScan FaqSearchSteps FaqSearchInvariants.

(** *** The invariant of searchOpenedItems *)


Lemma searchOpenedInvariant_alt s :
  searchOpenedInvariant s <->
  forall i, i ∈ searchOpenedItems s ->
            exists els, items s !! i = Some els /\ openedBySearch els.
Proof. reflexivity. Qed.


Lemma closeSearchOpened_others keep its opened its' opened' effs i els :
  closeSearchOpened keep 0 its opened = (its', opened', effs) ->
  i ∉ opened -> its !! i = Some els ->
  its' !! i = Some els
  /\ (i ∉ opened')
  /\ forall who, Click who i ∉ effs.
Proof.
  intros Hclose Hi Hels.
  destruct (closeSearchOpened_spec _ _ _ _ _ _ _ Hclose) as (Hitems & _ & Hset & Heffs).
  split_and!.
  - rewrite (Hitems i els Hels). simpl.
    now rewrite bool_decide_eq_false_2 by exact Hi.
  - rewrite Hset. tauto.
  - intros who Hin. destruct (Heffs _ Hin) as (k & x & [= -> ->] & Hk & _).
    contradiction.
Qed.








(** *** Items the search flow leaves alone *)

Lemma userClick_protected i j s :
  protected i s ->
  protected i (userClick j s)
  /\ exists effs, log (userClick j s) = log s ++ effs /\ Click BySearch i ∉ effs.
Proof.
  intros [Hset (els & Hels & Hattr)]. unfold userClick.
  destruct (items s !! j) as [x|] eqn:Hj.
  2:{ split; [split; eauto|]. exists []. rewrite app_nil_r. split; [auto|]. set_solver. }
  destruct (questionWrapper x).
  2:{ split; [split; eauto|]. exists []. rewrite app_nil_r. split; [auto|]. set_solver. }
  split.
  - split; [exact Hset|]. simpl. destruct (decide (i = j)) as [->|Hne].
    + rewrite Hels in Hj. injection Hj as <-. exists (click ByUser els). split.
      * apply list_lookup_insert_eq. now apply lookup_lt_Some in Hels.
      * now apply openedAttrIsTrue_click.
    + exists els. split; [|exact Hattr]. now rewrite list_lookup_insert_ne by auto.
  - exists [Click ByUser j]. split; [reflexivity|].
    intros Hin. apply list_elem_of_singleton in Hin. discriminate.
Qed.

Lemma openFaqItem_protected i j s :
  protected i s ->
  protected i (openFaqItem j s)
  /\ exists effs, log (openFaqItem j s) = log s ++ effs /\ Click BySearch i ∉ effs.
Proof.
  intros [Hset (els & Hels & Hattr)]. unfold openFaqItem.
  destruct (items s !! j) as [x|] eqn:Hj.
  2:{ split; [split; eauto|]. exists []. rewrite app_nil_r. split; [auto|]. set_solver. }
  destruct (questionWrapper x).
  2:{ split; [split; eauto|]. exists []. rewrite app_nil_r. split; [auto|]. set_solver. }
  destruct (openedAttrIsTrue x) eqn:Hx.
  { split; [split; eauto|]. exists []. rewrite app_nil_r. split; [auto|]. set_solver. }
  assert (Hne : i <> j).
  { intros ->. rewrite Hels in Hj. injection Hj as <-. congruence. }
  simpl. split.
  - split; [set_solver|]. exists els. split; [|exact Hattr].
    simpl. now rewrite list_lookup_insert_ne by auto.
  - exists [Click BySearch j]. split; [reflexivity|].
    intros Hin. apply list_elem_of_singleton in Hin. congruence.
Qed.

Lemma openedAttrIsTrue_flags els els' :
  itemFlags els' = itemFlags els -> openedAttrIsTrue els' = openedAttrIsTrue els.
Proof. unfold itemFlags, openedAttrIsTrue. now intros [= _ -> _ _ _]. Qed.

Lemma findFirstMatchAndAct_protected i fuel query s s' :
  protected i s ->
  findFirstMatchAndAct fuel query s = Some s' ->
  protected i s'
  /\ exists effs, log s' = log s ++ effs /\ Click BySearch i ∉ effs.
Proof.
  intros Hprot. destruct (String.eqb (normalizeText query) "") eqn:E.
  - unfold findFirstMatchAndAct. rewrite E. intros [= <-].
    split; [exact Hprot|]. exists []. rewrite app_nil_r. split; [auto|]. set_solver.
  - apply String.eqb_neq in E. intros H.
    apply findFirstMatchAndAct_spec in H as (its' & Hall & ->); [|exact E].
    destruct Hprot as [Hset (els & Hels & Hattr)].
    destruct (Forall2_lookup_l _ _ _ _ _ Hall Hels) as (els' & Hels' & Hflags & _).
    assert (Hattr' : openedAttrIsTrue els' = true)
      by now rewrite (openedAttrIsTrue_flags _ _ Hflags).
    destruct (firstMatch _ 0 (items s)) as [j|].
    + destruct (openFaqItem_protected i j
                  (mkState its' (searchOpenedItems s) (log s ++ [ScrollIntoView j])))
        as [Hp (effs & Hlog & Hno)].
      { split; [exact Hset|]. exists els'. auto. }
      split; [exact Hp|]. exists (ScrollIntoView j :: effs). split.
      * rewrite Hlog. simpl. now rewrite <- app_assoc.
      * intros Hin. apply elem_of_cons in Hin as [Hin | Hin]; [discriminate | auto].
    + split; [split; [exact Hset | exists els'; auto]|].
      exists []. rewrite app_nil_r. split; [auto|]. set_solver.
Qed.

Lemma onSearch_protected i fuel value s s' :
  protected i s ->
  onSearch fuel value s = Some s' ->
  protected i s'
  /\ exists effs, log s' = log s ++ effs /\ Click BySearch i ∉ effs.
Proof.
  intros [Hset (els & Hels & Hattr)]. destruct (String.eqb (JS.trim value) "") eqn:E.
  - apply String.eqb_eq in E. rewrite onSearch_blank by exact E.
    destruct (closeSearchOpened _ 0 _ _) as [[its opened] effs] eqn:Hclose.
    intros [= <-]. simpl.
    destruct (closeSearchOpened_others _ _ _ _ _ _ i (clearItem els) Hclose Hset)
      as (Hi & Hnot & Hno).
    { now rewrite list_lookup_fmap, Hels. }
    split; [split; [exact Hnot | exists (clearItem els); auto]|].
    exists effs. auto.
  - apply String.eqb_neq in E. rewrite onSearch_query by exact E.
    destruct (closeSearchOpened _ 0 _ _) as [[its opened] effs] eqn:Hclose.
    destruct (closeSearchOpened_others _ _ _ _ _ _ i els Hclose Hset Hels)
      as (Hi & Hnot & Hno).
    intros H.
    destruct (findFirstMatchAndAct_protected i _ _ _ _
                (conj Hnot (ex_intro _ els (conj Hi Hattr)) : protected i (mkState its opened (log s ++ effs))) H)
      as [Hp (effs' & Hlog & Hno')].
    split; [exact Hp|]. exists (effs ++ effs'). split.
    + rewrite Hlog. simpl. now rewrite <- app_assoc.
    + intros Hin. apply elem_of_app in Hin as [Hin | Hin]; [eapply Hno | ]; eauto.
Qed.

Lemma step_protected i fuel s e s' :
  protected i s ->
  step fuel s e = Some s' ->
  protected i s'
  /\ exists effs, log s' = log s ++ effs /\ Click BySearch i ∉ effs.
Proof.
  intros Hprot. destruct e as [j | value]; simpl.
  - intros [= <-]. now apply userClick_protected.
  - now apply onSearch_protected.
Qed.

Lemma run_protected i fuel es :
  forall s s',
    protected i s ->
    run fuel s es = Some s' ->
    protected i s'
    /\ exists effs, log s' = log s ++ effs /\ Click BySearch i ∉ effs.
Proof.
  induction es as [|e es IH]; intros s s' Hprot.
  - simpl. intros [= <-]. split; [exact Hprot|].
    exists []. rewrite app_nil_r. split; [auto|]. set_solver.
  - simpl. destruct (step fuel s e) as [s1|] eqn:Hstep; [|discriminate].
    simpl. intros Hrun.
    destruct (step_protected _ _ _ _ _ Hprot Hstep) as [Hp1 (effs1 & Hlog1 & Hno1)].
    destruct (IH _ _ Hp1 Hrun) as [Hp' (effs' & Hlog' & Hno')].
    split; [exact Hp'|]. exists (effs1 ++ effs'). split.
    + now rewrite Hlog', Hlog1, <- app_assoc.
    + intros Hin. apply elem_of_app in Hin as [Hin | Hin]; auto.
Qed.

(** *** The clicks of one search *)



(** *** Every header carries the click listener *)

Lemma tagged_flags els els' :
  itemFlags els' = itemFlags els -> tagged els -> tagged els'.
Proof. unfold itemFlags, tagged. now intros [= -> _ _ -> _]. Qed.

Lemma tagged_click who els : tagged els -> tagged (click who els).
Proof. unfold tagged, click. destruct (clickTagged els); simpl; auto. Qed.

Lemma tagged_closeItem i els : tagged els -> tagged (closeItem i els).1.
Proof.
  unfold closeItem. destruct (isFaqItemOpen els && questionWrapper els); simpl.
  - intros H. apply tagged_click with (who := BySearch) in H. exact H.
  - auto.
Qed.

Lemma closeSearchOpened_tagged keep its :
  forall i opened its' opened' effs,
    closeSearchOpened keep i its opened = (its', opened', effs) ->
    Forall tagged its -> Forall tagged its'.
Proof.
  induction its as [|els rest IH]; intros i opened its' opened' effs.
  - simpl. now intros [= <- <- <-].
  - rewrite closeSearchOpened_cons. intros H Hall.
    inversion Hall as [|? ? Hels Hrest]; subst.
    destruct (bool_decide (i ∈ opened) && negb (keep els)).
    + pose proof (tagged_closeItem i els Hels) as Ht.
      destruct (closeItem i els) as [els1 eff].
      destruct (closeSearchOpened keep (S i) rest (opened ∖ {[i]}))
        as [[rest' opened1] effs1] eqn:Hclose.
      injection H as <- <- <-. constructor; [exact Ht | eauto].
    + destruct (closeSearchOpened keep (S i) rest opened)
        as [[rest' opened1] effs1] eqn:Hclose.
      injection H as <- <- <-. constructor; eauto.
Qed.

Lemma openFaqItem_tagged i s :
  Forall tagged (items s) -> Forall tagged (items (openFaqItem i s)).
Proof.
  intros Hall. unfold openFaqItem.
  destruct (items s !! i) as [els|] eqn:Hi; [|exact Hall].
  destruct (questionWrapper els) eqn:Hw; [|exact Hall].
  destruct (openedAttrIsTrue els); [exact Hall|]. simpl.
  apply Forall_insert; [exact Hall|].
  assert (Hels : tagged els) by (eapply Forall_lookup_1; eauto).
  apply (tagged_click BySearch) in Hels. exact Hels.
Qed.

Lemma userClick_tagged i s :
  Forall tagged (items s) -> Forall tagged (items (userClick i s)).
Proof.
  intros Hall. unfold userClick.
  destruct (items s !! i) as [els|] eqn:Hi; [|exact Hall].
  destruct (questionWrapper els) eqn:Hw; [|exact Hall]. simpl.
  apply Forall_insert; [exact Hall|]. apply tagged_click.
  eapply Forall_lookup_1; eauto.
Qed.

Lemma rescanned_tagged fuel q its its' :
  Forall2 (rescanned fuel q) its its' -> Forall tagged its -> Forall tagged its'.
Proof.
  induction 1 as [|els els' its its' (Hf & _) _ IH]; [constructor|].
  intros Hall. inversion Hall; subst. constructor; [|auto].
  eapply tagged_flags; eauto.
Qed.

Lemma onSearch_tagged fuel value s s' :
  Forall tagged (items s) -> onSearch fuel value s = Some s' ->
  Forall tagged (items s').
Proof.
  intros Hall. destruct (String.eqb (JS.trim value) "") eqn:E.
  - apply String.eqb_eq in E. rewrite onSearch_blank by exact E.
    destruct (closeSearchOpened _ 0 _ _) as [[its opened] effs] eqn:Hclose.
    intros [= <-]. simpl.
    eapply closeSearchOpened_tagged; [exact Hclose|].
    apply Forall_fmap. eapply Forall_impl; [exact Hall|]. auto.
  - apply String.eqb_neq in E. rewrite onSearch_query by exact E.
    destruct (closeSearchOpened _ 0 _ _) as [[its opened] effs] eqn:Hclose.
    pose proof (closeSearchOpened_tagged _ _ _ _ _ _ _ Hclose Hall) as Hits.
    destruct (String.eqb (normalizeText value) "") eqn:Eq.
    + unfold findFirstMatchAndAct. rewrite Eq. now intros [= <-].
    + apply String.eqb_neq in Eq. intros H.
      apply findFirstMatchAndAct_spec in H as (its' & Hres & ->); [|exact Eq].
      simpl in Hres. pose proof (rescanned_tagged _ _ _ _ Hres Hits) as Hits'.
      cbn [items searchOpenedItems log].
      destruct (firstMatch (normalizeText value) 0 its); [|exact Hits'].
      now apply openFaqItem_tagged.
Qed.

Lemma init_tagged page : Forall tagged (items (init page)).
Proof.
  simpl. unfold ensureClickTagging. apply Forall_fmap, Forall_fmap.
  apply Forall_forall. intros els _. unfold tagged. simpl.
  destruct (questionWrapper els) eqn:Hw; simpl; [|now rewrite Hw].
  destruct (clickTagged els) eqn:Ht; simpl; auto.
Qed.

Lemma reachable_tagged page s : reachable page s -> Forall tagged (items s).
Proof.
  induction 1 as [|s e fuel s' _ IH Hstep]; [apply init_tagged|].
  destruct e as [i | value]; simpl in Hstep.
  - injection Hstep as <-. now apply userClick_tagged.
  - eapply onSearch_tagged; eauto.
Qed.



End FaqSearchSet.

(** ** The claims about the search controller *)

Import FaqSearch.




(** C6, as stated, fails: the click of the user does not clear the marker,
    it sets it, and it leaves the set as it is.  After the search for "api"
    has opened the second item, the user closes and reopens it: the marker
    is still ['true'] and the item is still in the set; when the query is
    cleared the search flow clicks the item and so closes it. *)
Lemma user_click_does_not_clear_marker :
  observe <$> run 64 (init Samples.page) [Searches "api"; UserClicks 1; UserClicks 1]
  = Some ([(None, false); (Some "true", true); (None, false)], [1],
          [ScrollIntoView 1; Click BySearch 1; Click ByUser 1; Click ByUser 1])
  /\ observe <$> run 64 (init Samples.page)
                     [Searches "api"; UserClicks 1; UserClicks 1; Searches ""]
     = Some ([(None, false); (None, false); (None, false)], [],
             [ScrollIntoView 1; Click BySearch 1; Click ByUser 1; Click ByUser 1;
              Click BySearch 1]).
Proof. split_and!; vm_compute; reflexivity. Qed.

(** C6, amended. In every reachable state a click of the user on the header
    of an item toggles the item, sets its marker attribute to ['true'] and
    leaves the set unchanged.  If the item is not in the set at that moment
    (the user, not the search flow, opened it), then whatever happens
    afterwards the item never enters the set and the search flow never
    clicks it, so it is never closed by the search flow. *)
Theorem user_click_marks_item
        (page : list FaqItem) (s : State) (i : nat) (els : FaqItem) :
  reachable page s ->
  items s !! i = Some els ->
  questionWrapper els = true ->
  (exists els', items (userClick i s) !! i = Some els'
                /\ openedAttr els' = Some "true"
                /\ isOpen els' = negb (isOpen els))
  /\ searchOpenedItems (userClick i s) = searchOpenedItems s
  /\ log (userClick i s) = log s ++ [Click ByUser i]
  /\ (i ∉ searchOpenedItems s ->
      forall fuel es,
        (enoughFuel fuel s -> is_Some (run fuel (userClick i s) es))
        /\ forall s', run fuel (userClick i s) es = Some s' ->
                      (i ∉ searchOpenedItems s')
                      /\ exists effs, log s' = log (userClick i s) ++ effs
                                      /\ Click BySearch i ∉ effs).
Proof.
  intros Hreach Hels Hw.
  assert (Htag : clickTagged els = true).
  { apply FaqSearchSet.reachable_tagged in Hreach.
    apply (Forall_lookup_1 _ _ _ _ Hreach Hels). exact Hw. }
  assert (Hclick : userClick i s =
                   mkState (<[i := click ByUser els]> (items s))
                           (searchOpenedItems s) (log s ++ [Click ByUser i]))
    by (unfold userClick; now rewrite Hels, Hw).
  assert (Hi : (<[i := click ByUser els]> (items s)) !! i = Some (click ByUser els))
    by (apply list_lookup_insert_eq; now apply lookup_lt_Some in Hels).
  rewrite Hclick. simpl. split_and!; auto.
  - exists (click ByUser els). split; [exact Hi|].
    unfold click. rewrite Htag. auto.
  - intros Hnot fuel es. split.
    + intros Hfuel. apply FaqSearchInvariants.run_terminates.
      eapply FaqSearchInvariants.enoughFuel_itemText; [|exact Hfuel].
      rewrite <- Hclick. apply FaqSearchInvariants.userClick_itemText.
    + intros s' Hrun.
      eapply (FaqSearchSet.run_protected i) in Hrun as [[Hout _] Hlog]; eauto.
      split; [exact Hnot|]. exists (click ByUser els). split; [exact Hi|].
      unfold openedAttrIsTrue. rewrite FaqSearchFacts.openedAttr_click, Htag.
      reflexivity.
Qed.

Lemma user_click_marks_item_witness :
  exists s', run 64 (userClick 2 (init Samples.page))
                 [Searches "limits"; Searches "pricing"; Searches " "] = Some s'
             /\ 2 ∉ searchOpenedItems s'.
Proof.
  edestruct (user_click_marks_item Samples.page (init Samples.page) 2)
    as (_ & _ & _ & Hlater).
  - apply reachable_init.
  - reflexivity.
  - reflexivity.
  - destruct (Hlater ltac:(vm_compute; set_solver) 64
                     [Searches "limits"; Searches "pricing"; Searches " "])
      as [Hreturns Hafter].
    destruct Hreturns as [s' Hs'].
    + repeat constructor; vm_compute; lia.
    + exists s'. split; [exact Hs'|]. now apply Hafter.
Defined.



(** C8. A search with an empty or blank query returns and leaves the
    flattened text of the regions of every item as it was; highlighting with
    the empty query returns the container unchanged, and clearing keeps the
    text of any container. *)
Theorem blank_query_keeps_text (fuel : nat) (value : string) (s : State) :
  JS.trim value = "" ->
  (exists s', onSearch fuel value s = Some s'
              /\ map itemText (items s') = map itemText (items s))
  /\ (forall container, highlightMatchesInElement fuel container "" = Some container)
  /\ (forall container, textContent (clearHighlights container) = textContent container).
Proof.
  intros Hblank. split_and!.
  - assert (Hsome : is_Some (onSearch fuel value s)).
    { rewrite FaqSearchInvariants.onSearch_blank by exact Hblank.
      destruct (closeSearchOpened _ 0 _ _) as [[its opened] effs]. eauto. }
    destruct Hsome as [s' Hs']. exists s'. split; [exact Hs'|].
    eapply FaqSearchInvariants.onSearch_itemText; eauto.
  - intros container. apply highlight_empty_query.
  - apply textContent_clearHighlights.
Qed.

Lemma blank_query_keeps_text_witness :
  exists s', onSearch 0 "  " (init Samples.page) = Some s'
             /\ map itemText (items s') = map itemText (items (init Samples.page)).
Proof.
  destruct (blank_query_keeps_text 0 "  " (init Samples.page)) as [H _].
  - reflexivity.
  - exact H.
Defined.
